(** * ASQP time-series decomposition (src/asqp.py)

    A shallow embedding of the smoothing / detrending / seasonal-bucketing
    pipeline of [asqp.py]:

      - [remove_irregularities]  (moving-average smoother)
      - [perform_least_squares]  (line fit through [np.linalg.lstsq])
      - [remove_trend]           (slope removal)
      - [is_seasonal]            (modulo-12 bucketing and [np.argmax])

    NumPy's [float64] is abstracted to exact rationals extended with [NaN]:
    rounding and overflow are not part of the model, NaN (the mean of an empty
    slice) is.  Python exceptions are an explicit [outcome].

    A theorem below identifies a result as the value of a named expression
    on named operands (the mean of a window, [series[i] - slope * i], a
    strided sum), read in real arithmetic.  An identity between two
    different computations, which float64 keeps only up to rounding, is not
    stated of the program. *)

From stdpp Require Import base list numbers gmap strings.
From Stdlib Require Import ZArith QArith Qcanon Field Lia.

Local Open Scope Qc_scope.

(** ** Float values *)

Inductive float : Type :=
  | Fin (q : Qc)
  | NaN.

Global Instance float_eq_dec : EqDecision float.
Proof. solve_decision. Defined.

Global Instance float_inhabited : Inhabited float := populate NaN.

Definition of_Z (z : Z) : float := Fin (Qc_of_Z z).
Definition of_nat (n : nat) : float := of_Z (Z.of_nat n).

(** Addition, subtraction and multiplication are exact on finite values, and
    NaN as soon as an operand is.  Nothing is rounded: the associativity and
    commutativity these operations have are not laws of float64. *)
Definition fadd (a b : float) : float :=
  match a, b with
  | Fin x, Fin y => Fin (x + y)
  | _, _ => NaN
  end.

Definition fsub (a b : float) : float :=
  match a, b with
  | Fin x, Fin y => Fin (x - y)
  | _, _ => NaN
  end.

Definition fmul (a b : float) : float :=
  match a, b with
  | Fin x, Fin y => Fin (x * y)
  | _, _ => NaN
  end.

(** Division.  The only division of the program is the one inside
    [ndarray.mean], whose divisor is an element count; it is zero exactly for
    the empty slice, where NumPy computes [0.0 / 0] = nan. *)
Definition fdiv (a b : float) : float :=
  match a, b with
  | Fin x, Fin y => if decide (y = 0) then NaN else Fin (x / y)
  | _, _ => NaN
  end.

(** [a <= b] on floats: every comparison with a NaN is false. *)
Definition fle (a b : float) : bool :=
  match a, b with
  | Fin x, Fin y => bool_decide (x ≤ y)
  | _, _ => false
  end.

Definition isnan (a : float) : bool :=
  match a with NaN => true | Fin _ => false end.

(** A one-dimensional [float64] array. *)
Abbreviation array := (list float).

Definition of_reals (l : list Qc) : array := Fin <$> l.

(** The finite entries of an array, when all of them are. *)
Fixpoint finite_values (a : array) : option (list Qc) :=
  match a with
  | [] => Some []
  | Fin q :: a' => (q ::.) <$> finite_values a'
  | NaN :: _ => None
  end.

(** ** Exceptions *)

Inductive exception : Type :=
  | TypeError
  | ValueError
  | IndexError
  | LinAlgError.

Inductive outcome (A : Type) : Type :=
  | Returns (a : A)
  | Raises (e : exception).
Global Arguments Returns {A} a.
Global Arguments Raises {A} e.

Global Instance outcome_ret : MRet outcome := λ A a, Returns a.
Global Instance outcome_bind : MBind outcome := λ A B f m,
  match m with
  | Returns a => f a
  | Raises e => Raises e
  end.

(** The call did not return: some exception escaped it.  The source defines
    no exception class of its own, so whichever exception escapes a call
    counts as the failure a caller would observe. *)
Definition fails {A} (o : outcome A) : Prop := ∃ e, o = Raises e.

(** [for i in idxs: s = body(i, s)] *)
Fixpoint for_each {S : Type} (idxs : list nat) (body : nat → S → outcome S)
    (s : S) : outcome S :=
  match idxs with
  | [] => Returns s
  | i :: idxs' => s' ← body i s; for_each idxs' body s'
  end.

(** [range(n)] *)
Definition range (n : nat) : list nat := seq 0 n.

(** ** NumPy and Python primitives *)

(** [a[i]] and [a[i] = v] for [0 <= i]; out of range is an [IndexError]. *)
Definition getitem (a : array) (i : nat) : outcome float :=
  match a !! i with
  | Some v => Returns v
  | None => Raises IndexError
  end.

Definition setitem (a : array) (i : nat) (v : float) : outcome array :=
  if decide (i < length a)%nat then Returns (<[i := v]> a) else Raises IndexError.

(** Slice bounds: a negative bound counts from the end, and every bound is
    clamped to [0, len]. *)
Definition slice_bound (len k : Z) : Z :=
  if (k <? 0)%Z then Z.max 0 (k + len) else Z.min k len.

(** [a[start:stop]] *)
Definition py_slice {A : Type} (a : list A) (start stop : Z) : list A :=
  let len := Z.of_nat (length a) in
  let lo := slice_bound len start in
  let hi := slice_bound len stop in
  take (Z.to_nat (hi - lo)) (drop (Z.to_nat lo) a).

(** Every [S step]-th element of a list, after skipping [skip] elements. *)
Fixpoint every_from {A : Type} (step skip : nat) (a : list A) : list A :=
  match a with
  | [] => []
  | x :: a' =>
      match skip with
      | O => x :: every_from step step a'
      | S k => every_from step k a'
      end
  end.

(** [a[start:stop:step]] for a positive [step]. *)
Definition py_slice_step {A : Type} (a : list A) (start stop : Z) (step : nat)
    : list A :=
  every_from (pred step) 0 (py_slice a start stop).

(** [a.sum()], the exact sum.  The order in which NumPy adds, which matters
    only to rounding, is not modelled. *)
Definition np_sum (a : array) : float := foldl fadd (Fin 0) a.

(** [a.mean()]: the exact sum over the element count (nan for an empty
    array). *)
Definition np_mean (a : array) : float :=
  fdiv (np_sum a) (of_nat (length a)).

(** [np.arange(n)] and [np.ones(n)] *)
Definition arange (n : nat) : list Qc := (λ i, Qc_of_Z (Z.of_nat i)) <$> range n.
Definition ones (n : nat) : list Qc := replicate n 1.

(** [np.vstack([r1, r2]).T]: the matrix whose rows are [(r1[i], r2[i])]. *)
Definition vstack_T (r1 r2 : list Qc) : list (Qc * Qc) := zip r1 r2.

Definition dot (u v : list Qc) : Qc := foldr Qcplus 0 (zip_with Qcmult u v).

(** The minimum-norm least-squares solution of [A x ≈ y] for a two-column
    matrix [A], through the Gram matrix [G = Aᵀ A] and [r = Aᵀ y]:
    of full column rank, [x = G⁻¹ r]; of rank one, the pseudo-inverse of [A]
    is [Aᵀ / tr G]; of rank zero, [x = 0].  It is the exact solution that
    LAPACK approximates in float64; the [rcond] cut-off, which drops a
    singular value that is tiny next to the largest, is not modelled. *)
Definition min_norm_solution (A : list (Qc * Qc)) (y : list Qc) : Qc * Qc :=
  let c1 := A.*1 in
  let c2 := A.*2 in
  let g11 := dot c1 c1 in
  let g12 := dot c1 c2 in
  let g22 := dot c2 c2 in
  let r1 := dot c1 y in
  let r2 := dot c2 y in
  let det := g11 * g22 - g12 * g12 in
  let tr := g11 + g22 in
  if decide (det = 0) then
    if decide (tr = 0) then (0, 0) else (r1 / tr, r2 / tr)
  else ((g22 * r1 - g12 * r2) / det, (g11 * r2 - g12 * r1) / det).

(** [np.linalg.lstsq(A, y, rcond=None)[0]] for a finite two-column [A] and a
    one-dimensional [y].  A row-count mismatch is NumPy's
    [LinAlgError('Incompatible dimensions')]; a NaN on the right-hand side
    propagates into both coefficients. *)
Definition lstsq (A : list (Qc * Qc)) (y : array) : outcome (float * float) :=
  if decide (length A = length y) then
    match finite_values y with
    | Some ys => let '(m, b) := min_norm_solution A ys in Returns (Fin m, Fin b)
    | None => Returns (NaN, NaN)
    end
  else Raises LinAlgError.

(** The scan of [np.argmax] over the entries after the first: [mp] is the
    running maximum, [max_ind] its index, [i] the index of the head of
    [rest].  The test is the negated [<=], and a NaN ends the scan. *)
Fixpoint argmax_scan (rest : array) (i : nat) (mp : float) (max_ind : nat) : nat :=
  match rest with
  | [] => max_ind
  | v :: rest' =>
      if fle v mp then argmax_scan rest' (S i) mp max_ind
      else if isnan v then i
      else argmax_scan rest' (S i) v i
  end.

(** [np.argmax(a)]; an empty array is a [ValueError]. *)
Definition argmax (a : array) : outcome nat :=
  match a with
  | [] => Raises ValueError
  | v :: rest => if isnan v then Returns 0%nat else Returns (argmax_scan rest 1 v 0)
  end.

(** ** The program *)

(** [perform_least_squares(y)], lines 127-142. *)
Definition perform_least_squares (y : array) : outcome (float * float) :=
  let x := arange (length y) in
  let A := vstack_T x (ones (length y)) in
  '(m, b) ← lstsq A y;
  Returns (m, b).

(** [remove_irregularities(ts, width)], lines 147-167. *)
Definition remove_irregularities (ts : array) (width : Z) : outcome array :=
  let smoothed_ts := ts in
  let num_rows := length smoothed_ts in
  smoothed_ts ← for_each (range num_rows) (λ i smoothed_ts,
    let start :=
      if (0 <? Z.of_nat i - width)%Z then (Z.of_nat i - width)%Z else 0%Z in
    let end_ :=
      if (Z.of_nat i + width + 1 <? Z.of_nat num_rows)%Z
      then (Z.of_nat i + width + 1)%Z else Z.of_nat num_rows in
    setitem smoothed_ts i (np_mean (py_slice ts start end_))) smoothed_ts;
  Returns smoothed_ts.

(** [remove_trend(ts, width)], lines 170-187. *)
Definition remove_trend (ts : array) (width : Z) : outcome array :=
  smoothed_data ← remove_irregularities ts width;
  '(m, b) ← perform_least_squares smoothed_data;
  let cleaned_ts := ts in
  cleaned_ts ← for_each (range (length ts)) (λ i cleaned_ts,
    let off_set := fmul m (of_nat i) in
    v ← getitem cleaned_ts i;
    setitem cleaned_ts i (fsub v off_set)) cleaned_ts;
  Returns cleaned_ts.

(** [is_seasonal(ts, width)], lines 190-211. *)
Definition is_seasonal (ts : array) (width : Z) : outcome (array * nat) :=
  trendless_data ← remove_trend ts width;
  let months := replicate 12 (of_Z 1) in
  months ← for_each (range 12) (λ i months,
    let data :=
      py_slice_step trendless_data (Z.of_nat i)
        (Z.of_nat (length trendless_data)) 12 in
    setitem months i (np_sum data)) months;
  index_of ← argmax months;
  Returns (months, index_of).

(** ** Calls from Python

    The positional arguments of a call, as the interpreter binds them to the
    parameters of a [def]; an arity mismatch is a [TypeError]. *)

Inductive object : Type :=
  | Arr (a : array)
  | Int (z : Z).

(** [def is_seasonal(ts, width)]: two parameters, none with a default. *)
Definition call_is_seasonal (args : list object) : outcome (array * nat) :=
  match args with
  | [Arr ts; Int width] => is_seasonal ts width
  | _ => Raises TypeError
  end.

(** ** Auxiliary definitions for the statements *)

Definition sum_list (l : list Qc) : Qc := foldr Qcplus 0 l.

(** The slice that iteration [i] of [remove_irregularities] averages. *)
Definition window (ts : array) (width : Z) (i : nat) : array :=
  let num_rows := length ts in
  let start :=
    if (0 <? Z.of_nat i - width)%Z then (Z.of_nat i - width)%Z else 0%Z in
  let end_ :=
    if (Z.of_nat i + width + 1 <? Z.of_nat num_rows)%Z
    then (Z.of_nat i + width + 1)%Z else Z.of_nat num_rows in
  py_slice ts start end_.

(** The arithmetic mean of [series[lo .. hi)], by index. *)
Definition window_mean (series : list Qc) (lo hi : Z) : Qc :=
  sum_list ((λ j, default 0 (series !! j))
              <$> seq (Z.to_nat lo) (Z.to_nat (hi - lo)))
  / Qc_of_Z (hi - lo).

(** The sum of squared residuals of the line [m * x + b] through the points
    [(i, y[i])], [i] the 0-based index. *)
Definition squared_error (y : list Qc) (m b : Qc) : Qc :=
  sum_list (imap (λ i yi,
    (yi - (m * Qc_of_Z (Z.of_nat i) + b)) * (yi - (m * Qc_of_Z (Z.of_nat i) + b))) y).

(** [(m, b)] is the ordinary-least-squares line of [y]: it minimises the
    squared error, and it is the only line to do so. *)
Definition least_squares_line (y : list Qc) (m b : Qc) : Prop :=
  ∀ m' b', squared_error y m b ≤ squared_error y m' b'
           ∧ (squared_error y m' b' ≤ squared_error y m b → m' = m ∧ b' = b).

(** The squared residual of [A (m, b)ᵀ] against [y], row by row. *)
Fixpoint residual2 (A : list (Qc * Qc)) (y : list Qc) (m b : Qc) : Qc :=
  match A, y with
  | (a1, a2) :: A', yi :: y' =>
      (yi - (m * a1 + b * a2)) * (yi - (m * a1 + b * a2)) + residual2 A' y' m b
  | _, _ => 0
  end.

(** The entries of [l] whose index satisfies [P], the head of [l] having
    index [base]. *)
Fixpoint select {A : Type} (P : nat → bool) (base : nat) (l : list A) : list A :=
  match l with
  | [] => []
  | x :: l' =>
      if P base then x :: select P (S base) l' else select P (S base) l'
  end.

(** The sum of the values of [d] at the indices congruent to [p] modulo
    [period]. *)
Definition bucket_sum (d : list Qc) (period p : nat) : Qc :=
  sum_list (select (λ j, (j mod period =? p)%nat) 0 d).

(** [k] is the smallest index at which [l] attains its maximum. *)
Definition first_maximum (l : list Qc) (k : nat) : Prop :=
  ∃ v, l !! k = Some v
       ∧ (∀ j w, l !! j = Some w → w ≤ v)
       ∧ (∀ j w, (j < k)%nat → l !! j = Some w → w < v).

(** The twelve bucket sums of a detrended series, by index modulo 12. *)
Definition buckets_of (d : array) : array :=
  (λ p, np_sum (select (λ j, (j mod 12 =? p)%nat) 0 d)) <$> range 12.

(** ** Evaluation on concrete inputs *)

Ltac by_eval :=
  match goal with
  | |- ?P => apply (bool_decide_unpack P); vm_compute; exact I
  end.

Global Instance exception_eq_dec : EqDecision exception.
Proof. solve_decision. Defined.

Global Instance outcome_eq_dec `{EqDecision A} : EqDecision (outcome A).
Proof. solve_decision. Defined.

Definition ints (l : list Z) : array := of_Z <$> l.
Global Arguments ints l%_Z.
Definition q (n : Z) (d : positive) : float := Fin (Q2Qc (n # d)).
Global Arguments q n%_Z d%_positive.

(** ** Task 1: aggregate statistics *)

(** [a > b] on floats: false as soon as one side is a NaN. *)
Definition fgt (a b : float) : bool :=
  match a, b with
  | Fin x, Fin y => bool_decide (y < x)
  | _, _ => false
  end.

(** A [dict] with string keys: its items in insertion order, which is the
    order a [for] loop visits them in.  The keys of a Python dict are
    distinct. *)
Abbreviation dict V := (list (string * V)).

(** [average_delay(arrival_time)], lines 14-26. *)
Definition average_delay (arrival_time : array) : float :=
  let delayed_frame := filter (λ t, fle (of_Z 15) t) arrival_time in
  np_mean delayed_frame.

(** Python's [n / d] on two ints: true division, a [ZeroDivisionError] for
    a zero divisor. *)
Inductive checked (A : Type) : Type :=
  | Value (a : A)
  | ZeroDivisionError.
Global Arguments Value {A} a.
Global Arguments ZeroDivisionError {A}.

Global Instance checked_eq_dec `{EqDecision A} : EqDecision (checked A).
Proof. solve_decision. Defined.

Global Instance checked_bind : MBind checked := λ A B f m,
  match m with
  | Value a => f a
  | ZeroDivisionError => ZeroDivisionError
  end.

Definition int_truediv (n d : nat) : checked float :=
  if decide (d = 0%nat) then ZeroDivisionError
  else Value (Fin (Qc_of_Z (Z.of_nat n) / Qc_of_Z (Z.of_nat d))).

(** [delay_and_cancel_fractions(arrival_time, cancellation_code)],
    lines 29-46. *)
Definition delay_and_cancel_fractions (arrival_time : array)
    (cancellation_code : list string) : checked (float * float) :=
  let delayed_flights := filter (λ t, fle (of_Z 15) t) arrival_time in
  let cancelled_flights := filter (λ c, c ≠ "nan"%string) cancellation_code in
  delay_ratio ← int_truediv (length delayed_flights) (length arrival_time);
  cancelled_ratio ←
    int_truediv (length cancelled_flights) (length cancellation_code);
  Value (delay_ratio, cancelled_ratio).

(** [per_carrier_cancels(cancellation_code_by_carriers)], lines 49-72.  The
    loop state is [(most_cancelled, poor_carrier, count_cancelled)]. *)
Definition per_carrier_cancels
    (cancellation_code_by_carriers : dict (list string))
    : gmap string nat * string :=
  let '(most_cancelled, poor_carrier, count_cancelled) :=
    foldl (λ '(most_cancelled, poor_carrier, count_cancelled)
             '(carrier, carrier_cancellations),
        let number_cancelled :=
          length (filter (λ c, c ≠ "nan"%string) carrier_cancellations) in
        let count_cancelled := <[carrier := number_cancelled]> count_cancelled in
        if (most_cancelled <? Z.of_nat number_cancelled)%Z
        then (Z.of_nat number_cancelled, carrier, count_cancelled)
        else (most_cancelled, poor_carrier, count_cancelled))
      ((-1)%Z, ""%string, ∅) cancellation_code_by_carriers in
  (count_cancelled, poor_carrier).

(** [underperforming_carriers(arrivals_by_carrier)], lines 75-107.
    [aggregate_data] starts as [None]; comparing [None >= 15] is a
    [TypeError]. *)
Definition underperforming_carriers (arrivals_by_carrier : dict array)
    : outcome (list string) :=
  let aggregate_data :=
    foldl (λ aggregate_data '(k, v),
        match aggregate_data with
        | None => Some v
        | Some a => Some (a ++ v)
        end) None arrivals_by_carrier in
  match aggregate_data with
  | None => Raises TypeError
  | Some aggregate_data =>
      let valid_delays := filter (λ t, fle (of_Z 15) t) aggregate_data in
      if decide (length valid_delays = 0%nat) then Returns []
      else
        let av_delay := np_mean valid_delays in
        Returns (foldl (λ poor_carriers '(carrier, carrier_data),
            let carrier_valid_delays :=
              filter (λ t, fle (of_Z 15) t) carrier_data in
            let carrier_mean_delay := np_mean carrier_valid_delays in
            if fgt carrier_mean_delay av_delay
            then poor_carriers ++ [carrier] else poor_carriers)
          [] arrivals_by_carrier)
  end.

(** [read_and_process_npy(filename)], lines 112-122.  [np_load] is the file
    system: the two-dimensional array stored under a file name, row by row.
    The result is the number of entries of at least 60 in each row. *)
Definition read_and_process_npy (np_load : string → list array)
    (filename : string) : list nat :=
  let ts_data := np_load filename in
  (λ row, length (filter (λ t, fle (of_Z 60) t) row)) <$> ts_data.

(** An integer array as the [float] array that [astype(float)] makes of it. *)
Definition astype_float (counts : list nat) : array := of_nat <$> counts.

(** *** Auxiliary definitions for the statements *)

(** The finite entries of at least [bound], in order. *)
Fixpoint at_least (bound : Qc) (a : array) : list Qc :=
  match a with
  | [] => []
  | Fin x :: a' =>
      if decide (bound ≤ x) then x :: at_least bound a' else at_least bound a'
  | NaN :: a' => at_least bound a'
  end.

(** The number of cancelled flights among the codes of a carrier. *)
Definition cancelled (codes : list string) : nat :=
  length (filter (λ c, c ≠ "nan"%string) codes).

(** The arithmetic mean of a non-empty list of rationals. *)
Definition mean (l : list Qc) : Qc := sum_list l / Qc_of_Z (Z.of_nat (length l)).

(** ** Loops that update one cell per iteration *)

Section loops.
Context (F : nat → float → float) (body : nat → array → outcome array).
Hypothesis body_spec :
  ∀ i s v, s !! i = Some v → body i s = Returns (<[i := F i v]> s).

Lemma for_each_cells n : ∀ a (s : array),
  (a + n ≤ length s)%nat →
  ∃ s', for_each (seq a n) body s = Returns s'
      ∧ length s' = length s
      ∧ ∀ j, s' !! j =
             if decide (a ≤ j < a + n)%nat then F j <$> s !! j else s !! j.
Proof.
  induction n as [|n IH]; intros a s Hlen.
  - exists s. split_and!; [done..|]. intros j. case_decide; [lia|done].
  - destruct (lookup_lt_is_Some_2 s a) as [v Hv]; [lia|].
    cbn [seq for_each]. rewrite (body_spec _ _ _ Hv). cbn.
    destruct (IH (S a) (<[a := F a v]> s)) as (s' & Hrun & Hl & Hlook).
    { rewrite length_insert. lia. }
    exists s'. rewrite length_insert in Hl. split_and!; [done..|].
    intros j. rewrite Hlook.
    destruct (decide (j = a)) as [->|Hne].
    + rewrite list_lookup_insert_eq by (by eapply lookup_lt_Some).
      rewrite Hv. repeat case_decide; first [lia|done].
    + rewrite list_lookup_insert_ne by done.
      repeat case_decide; first [lia|done].
Qed.

Lemma for_each_range (s : array) :
  for_each (range (length s)) body s = Returns (imap F s).
Proof.
  destruct (for_each_cells (length s) 0 s) as (s' & Hrun & Hl & Hlook); [lia|].
  unfold range. rewrite Hrun.
  f_equal. apply list_eq. intros j. rewrite Hlook, list_lookup_imap.
  case_decide; [done|].
  rewrite (lookup_ge_None_2 s j) by lia. done.
Qed.
End loops.

(** ** Sums *)

Lemma fadd_comm a b : fadd a b = fadd b a.
Proof. destruct a, b; cbn; f_equal; ring. Qed.

Lemma fadd_assoc a b c : fadd a (fadd b c) = fadd (fadd a b) c.
Proof. destruct a, b, c; cbn; f_equal; ring. Qed.

Lemma fadd_0_l a : fadd (Fin 0) a = a.
Proof. destruct a; cbn; f_equal; ring. Qed.

Lemma fadd_0_r a : fadd a (Fin 0) = a.
Proof. rewrite fadd_comm. apply fadd_0_l. Qed.

Lemma foldl_fadd acc (a : array) :
  foldl fadd acc a = fadd acc (foldl fadd (Fin 0) a).
Proof.
  revert acc. induction a as [|x a IH]; intros acc; cbn [foldl].
  - by rewrite fadd_0_r.
  - rewrite (IH (fadd acc x)), (IH (fadd (Fin 0) x)).
    by rewrite fadd_0_l, fadd_assoc.
Qed.

Lemma np_sum_nil : np_sum [] = Fin 0.
Proof. done. Qed.

Lemma np_sum_cons x (a : array) : np_sum (x :: a) = fadd x (np_sum a).
Proof. unfold np_sum. cbn [foldl]. by rewrite foldl_fadd, fadd_0_l. Qed.

Lemma np_sum_of_reals (l : list Qc) : np_sum (of_reals l) = Fin (sum_list l).
Proof.
  induction l as [|x l IH]; [done|].
  unfold of_reals in *. rewrite fmap_cons, np_sum_cons, IH. done.
Qed.

Lemma Qc_of_nat_neq_0 (n : nat) : n ≠ 0%nat → Qc_of_Z (Z.of_nat n) ≠ 0.
Proof. intros Hn. rewrite <- Z2Qc_inj_0. intros H%Z2Qc_inj. lia. Qed.

Lemma np_mean_of_reals (l : list Qc) :
  l ≠ [] →
  np_mean (of_reals l) = Fin (sum_list l / Qc_of_Z (Z.of_nat (length l))).
Proof.
  intros Hl. unfold np_mean. rewrite np_sum_of_reals.
  unfold of_reals. rewrite length_fmap. cbn.
  rewrite decide_False; [done|].
  apply Qc_of_nat_neq_0. by destruct l.
Qed.

(** ** Slices *)

Lemma py_slice_fmap {A B} (f : A → B) (a : list A) start stop :
  py_slice (f <$> a) start stop = f <$> py_slice a start stop.
Proof. unfold py_slice. by rewrite length_fmap, fmap_take, fmap_drop. Qed.

Lemma py_slice_in_range {A} (a : list A) (lo hi : nat) :
  (lo ≤ hi ≤ length a)%nat →
  py_slice a (Z.of_nat lo) (Z.of_nat hi) = take (hi - lo) (drop lo a).
Proof.
  intros H. unfold py_slice, slice_bound.
  rewrite !(proj2 (Z.ltb_ge _ _)) by lia.
  f_equal; [|f_equal]; lia.
Qed.

Lemma lookups_seq (l : list Qc) (lo n : nat) :
  (lo + n ≤ length l)%nat →
  (λ j, default 0 (l !! j)) <$> seq lo n = take n (drop lo l).
Proof.
  intros H. apply list_eq. intros k.
  rewrite list_lookup_fmap.
  destruct (decide (k < n)%nat) as [Hk|Hk].
  - rewrite lookup_seq_lt by done. rewrite lookup_take_lt, lookup_drop by done.
    cbn. destruct (lookup_lt_is_Some_2 l (lo + k)) as [v ->]; [lia|done].
  - rewrite lookup_seq_ge by lia. rewrite lookup_take_ge by lia. done.
Qed.

(** ** The smoother *)

Lemma remove_irregularities_eq (ts : array) (width : Z) :
  remove_irregularities ts width
  = Returns (imap (λ i _, np_mean (window ts width i)) ts).
Proof.
  unfold remove_irregularities.
  rewrite (for_each_range (λ i _, np_mean (window ts width i))); [done|].
  intros i s v Hv. unfold setitem.
  rewrite decide_True by (by eapply lookup_lt_Some). done.
Qed.

Lemma window_clipped (ts : array) (width : Z) (i : nat) :
  (0 ≤ width)%Z → (i < length ts)%nat →
  let lo := Z.to_nat (Z.max 0 (Z.of_nat i - width)) in
  let hi := Z.to_nat (Z.min (Z.of_nat (length ts)) (Z.of_nat i + width + 1)) in
  (lo ≤ i < hi)%nat ∧ (hi ≤ length ts)%nat
  ∧ window ts width i = take (hi - lo) (drop lo ts).
Proof.
  intros Hw Hi lo hi.
  assert (lo ≤ i < hi ∧ hi ≤ length ts)%nat as Hb by (subst lo hi; lia).
  split_and!; [lia..|].
  rewrite <- py_slice_in_range by lia. unfold window. f_equal.
  - subst lo. case_match eqn:E; [apply Z.ltb_lt in E|apply Z.ltb_ge in E]; lia.
  - subst hi. case_match eqn:E; [apply Z.ltb_lt in E|apply Z.ltb_ge in E]; lia.
Qed.

Lemma length_of_reals (l : list Qc) : length (of_reals l) = length l.
Proof. apply length_fmap. Qed.

Lemma np_mean_window (series : list Qc) (width : Z) (i : nat) :
  (0 ≤ width)%Z → (i < length series)%nat →
  np_mean (window (of_reals series) width i)
  = Fin (window_mean series (Z.max 0 (Z.of_nat i - width))
           (Z.min (Z.of_nat (length series)) (Z.of_nat i + width + 1))).
Proof.
  intros Hw Hi.
  destruct (window_clipped (of_reals series) width i) as (Hlo & Hhi & ->);
    [done|by rewrite length_of_reals|].
  rewrite length_of_reals in *. unfold of_reals at 1.
  set (lo := Z.to_nat (Z.max 0 (Z.of_nat i - width))) in *.
  set (hi := Z.to_nat (Z.min (Z.of_nat (length series))
                         (Z.of_nat i + width + 1))) in *.
  rewrite <- fmap_drop, <- fmap_take. fold (of_reals (take (hi - lo) (drop lo series))).
  assert (length (take (hi - lo) (drop lo series)) = (hi - lo)%nat) as Hlen.
  { rewrite length_take, length_drop. lia. }
  rewrite (np_mean_of_reals (take (hi - lo) (drop lo series))).
  2:{ intros E. rewrite E in Hlen. cbn in Hlen. lia. }
  rewrite Hlen. unfold window_mean.
  replace (Z.to_nat (Z.min (Z.of_nat (length series)) (Z.of_nat i + width + 1)
                     - Z.max 0 (Z.of_nat i - width))) with (hi - lo)%nat by lia.
  fold lo. rewrite lookups_seq by lia.
  do 3 f_equal. lia.
Qed.

Lemma remove_irregularities_reals (series : list Qc) (width : Z) :
  (0 ≤ width)%Z →
  remove_irregularities (of_reals series) width
  = Returns (of_reals (imap (λ i _,
      window_mean series (Z.max 0 (Z.of_nat i - width))
        (Z.min (Z.of_nat (length series)) (Z.of_nat i + width + 1))) series)).
Proof.
  intros Hw. rewrite remove_irregularities_eq. f_equal.
  apply list_eq. intros i. unfold of_reals at 2 3.
  rewrite list_lookup_fmap, !list_lookup_imap, list_lookup_fmap.
  destruct (series !! i) as [v|] eqn:Hv; [|done]. cbn. f_equal.
  apply np_mean_window; [done|]. by eapply lookup_lt_Some.
Qed.

(** C1. For every series of length N and every width >= 0, entry [i] of the
    smoothed series is the arithmetic mean of
    [series[max(0,i-width) .. min(N,i+width+1))]; on [[1,2,3,4,5]] with width
    1 the result is [[1.5, 2.0, 3.0, 4.0, 4.5]]. *)
Theorem smooth_is_clipped_window_mean (series : list Qc) (width : Z) :
  (0 ≤ width)%Z →
  (∃ smoothed : list Qc,
      remove_irregularities (of_reals series) width = Returns (of_reals smoothed)
      ∧ length smoothed = length series
      ∧ ∀ i : nat, (i < length series)%nat →
          smoothed !! i
          = Some (window_mean series (Z.max 0 (Z.of_nat i - width))
                    (Z.min (Z.of_nat (length series)) (Z.of_nat i + width + 1))))
  ∧ remove_irregularities (ints [1; 2; 3; 4; 5]%Z) 1
    = Returns [q 3 2; q 2 1; q 3 1; q 4 1; q 9 2].
Proof.
  intros Hw. split; [|by_eval].
  eexists. split_and!; [by apply remove_irregularities_reals|..].
  - by rewrite length_imap.
  - intros i Hi. rewrite list_lookup_imap.
    destruct (lookup_lt_is_Some_2 series i) as [v ->]; done.
Qed.

Lemma smooth_is_clipped_window_mean_witness :
  ∃ smoothed : list Qc,
    remove_irregularities (ints [4; 8; 0]%Z) 1 = Returns (of_reals smoothed)
    ∧ smoothed !! 0%nat = Some (window_mean [Qc_of_Z 4; Qc_of_Z 8; Qc_of_Z 0] 0 2).
Proof.
  destruct (smooth_is_clipped_window_mean [Qc_of_Z 4; Qc_of_Z 8; Qc_of_Z 0] 1)
    as [(smoothed & Hrun & _ & Hi) _]; [lia|].
  exists smoothed. split; [exact Hrun|].
  apply (Hi 0%nat). cbn. lia.
Defined.

Lemma np_mean_singleton (v : float) : np_mean [v] = v.
Proof.
  unfold np_mean. rewrite np_sum_cons, np_sum_nil, fadd_0_r.
  destruct v as [x|]; [|done]. cbn.
  rewrite decide_False by (by apply (Qc_of_nat_neq_0 1)).
  f_equal. change (Qc_of_Z (Z.of_nat 1)) with (Qc_of_Z 1).
  rewrite Z2Qc_inj_1. apply (right_id 1 Qcdiv).
Qed.

Lemma window_width_0 (ts : array) (i : nat) (v : float) :
  ts !! i = Some v → window ts 0 i = [v].
Proof.
  intros Hv. pose proof (lookup_lt_Some _ _ _ Hv) as Hi.
  destruct (window_clipped ts 0 i) as (_ & _ & ->); [done..|].
  replace (Z.to_nat (Z.max 0 (Z.of_nat i - 0))) with i by lia.
  replace (Z.to_nat (Z.min (Z.of_nat (length ts)) (Z.of_nat i + 0 + 1)))
    with (S i) by lia.
  replace (S i - i)%nat with 1%nat by lia.
  rewrite (drop_S _ _ _ Hv). done.
Qed.

Lemma remove_irregularities_width_0 (series : array) :
  remove_irregularities series 0 = Returns series.
Proof.
  rewrite remove_irregularities_eq. f_equal.
  apply list_eq. intros i. rewrite list_lookup_imap.
  destruct (series !! i) as [v|] eqn:Hv; [|done]. cbn.
  by rewrite (window_width_0 _ _ _ Hv), np_mean_singleton.
Qed.

(** C7. Smoothing at width 0 is the identity: [smooth(series, 0)] is the
    input series, element for element. *)
Theorem smooth_width_0_identity (series : array) :
  remove_irregularities series 0 = Returns series.
Proof. apply remove_irregularities_width_0. Qed.

(** ** Least squares *)

Lemma Qc_square_nonneg (x : Qc) : 0 ≤ x * x.
Proof.
  destruct (Qclt_le_dec x 0) as [Hx|Hx].
  - replace (x * x) with ((- x) * (- x)) by ring.
    assert (0 ≤ - x).
    { apply Qclt_le_weak in Hx. apply Qcopp_le_compat in Hx.
      by replace (- 0) with 0 in Hx by ring. }
    by apply Qcmult_nonneg_nonneg.
  - by apply Qcmult_nonneg_nonneg.
Qed.

Lemma dot_cons a b u v : dot (a :: u) (b :: v) = a * b + dot u v.
Proof. done. Qed.

Lemma dot_snoc u v a b :
  length u = length v → dot (u ++ [a]) (v ++ [b]) = dot u v + a * b.
Proof.
  revert v. induction u as [|x u IH]; intros [|z v] Hl; try done.
  - cbn. ring.
  - cbn [app]. rewrite !dot_cons, IH by (cbn in Hl; lia). ring.
Qed.

Section gram.
Context (A : list (Qc * Qc)).
Local Abbreviation g11 := (dot (A.*1) (A.*1)).
Local Abbreviation g12 := (dot (A.*1) (A.*2)).
Local Abbreviation g22 := (dot (A.*2) (A.*2)).

Lemma residual2_shift (y : list Qc) (m b dm db : Qc) :
  length A = length y →
  residual2 A y (m + dm) (b + db)
  = residual2 A y m b
    + (dm * dm * g11 + (1 + 1) * dm * db * g12 + db * db * g22)
    - (1 + 1) * (dm * (dot (A.*1) y - m * g11 - b * g12)
                 + db * (dot (A.*2) y - m * g12 - b * g22)).
Proof.
  revert y.
  induction A as [|[a1 a2] A' IH]; intros [|yi y] Hl; try done.
  - cbn. ring.
  - cbn [residual2]. rewrite IH by (cbn in Hl; lia).
    rewrite !fmap_cons, !dot_cons. cbn [fst snd]. ring.
Qed.

Lemma gram_form_nonneg (dm db : Qc) :
  0 ≤ dm * dm * g11 + (1 + 1) * dm * db * g12 + db * db * g22.
Proof.
  induction A as [|[a1 a2] A' IH].
  - cbn. replace (dm * dm * 0 + (1 + 1) * dm * db * 0 + db * db * 0) with 0 by ring.
    done.
  - rewrite !fmap_cons, !dot_cons. cbn [fst snd].
    match goal with |- 0 ≤ ?e =>
      replace e with
        ((dm * a1 + db * a2) * (dm * a1 + db * a2)
         + (dm * dm * dot (A'.*1) (A'.*1) + (1 + 1) * dm * db * dot (A'.*1) (A'.*2)
            + db * db * dot (A'.*2) (A'.*2))) by ring
    end.
    apply Qcplus_nonneg_nonneg; [apply Qc_square_nonneg|apply IH].
Qed.

Lemma min_norm_solution_full_rank (y : list Qc) :
  g11 * g22 - g12 * g12 ≠ 0 →
  min_norm_solution A y
  = ((g22 * dot (A.*1) y - g12 * dot (A.*2) y) / (g11 * g22 - g12 * g12),
     (g11 * dot (A.*2) y - g12 * dot (A.*1) y) / (g11 * g22 - g12 * g12)).
Proof.
  intros Hdet. unfold min_norm_solution. by rewrite decide_False.
Qed.

Lemma normal_equations (y : list Qc) (m b : Qc) :
  g11 * g22 - g12 * g12 ≠ 0 →
  min_norm_solution A y = (m, b) →
  dot (A.*1) y - m * g11 - b * g12 = 0
  ∧ dot (A.*2) y - m * g12 - b * g22 = 0.
Proof.
  intros Hdet. rewrite min_norm_solution_full_rank by done.
  intros [= <- <-]. split; field; done.
Qed.

Lemma min_norm_solution_minimises (y : list Qc) (m b m' b' : Qc) :
  length A = length y →
  g11 * g22 - g12 * g12 ≠ 0 →
  min_norm_solution A y = (m, b) →
  residual2 A y m' b'
  = residual2 A y m b
    + ((m' - m) * (m' - m) * g11 + (1 + 1) * (m' - m) * (b' - b) * g12
       + (b' - b) * (b' - b) * g22).
Proof.
  intros Hl Hdet Hsol.
  destruct (normal_equations y m b Hdet Hsol) as [E1 E2].
  replace m' with (m + (m' - m)) at 1 by ring.
  replace b' with (b + (b' - b)) at 1 by ring.
  rewrite residual2_shift by done. rewrite E1, E2. ring.
Qed.
End gram.

Lemma Qc_sum_nonneg_0 (a b : Qc) : 0 ≤ a → 0 ≤ b → a + b = 0 → a = 0 ∧ b = 0.
Proof.
  intros Ha Hb Hab.
  assert (a ≤ 0) as Ha'.
  { rewrite <- Hab. rewrite <- (Qcplus_0_r a) at 1.
    by apply Qcplus_le_mono_l. }
  assert (a = 0) as -> by (by apply Qcle_antisym).
  split; [done|]. by rewrite Qcplus_0_l in Hab.
Qed.

Lemma Qc_square_0 (x : Qc) : x * x = 0 → x = 0.
Proof. intros H. by destruct (Qcmult_integral _ _ H). Qed.

(** With a positive Gram determinant the quadratic form of [G] vanishes only
    at the origin. *)
Lemma gram_form_definite (g11 g12 g22 dm db : Qc) :
  0 < g11 * g22 - g12 * g12 → 0 < g22 →
  0 ≤ dm * dm * g11 + (1 + 1) * dm * db * g12 + db * db * g22 →
  dm * dm * g11 + (1 + 1) * dm * db * g12 + db * db * g22 ≤ 0 →
  dm = 0 ∧ db = 0.
Proof.
  intros Hdet Hg22 Hge Hle.
  pose proof (Qcle_antisym _ _ Hle Hge) as Hq.
  assert ((db * g22 + dm * g12) * (db * g22 + dm * g12)
          + dm * dm * (g11 * g22 - g12 * g12) = 0) as Hsplit.
  { transitivity
      (g22 * (dm * dm * g11 + (1 + 1) * dm * db * g12 + db * db * g22));
      [ring|]. rewrite Hq. ring. }
  apply Qc_sum_nonneg_0 in Hsplit as [_ Hdm].
  - assert (dm = 0) as ->.
    { apply Qcmult_integral in Hdm as [Hdm|Hdm].
      - by apply Qc_square_0.
      - rewrite Hdm in Hdet. by apply Qclt_not_eq in Hdet. }
    split; [done|].
    assert (db * db * g22 = 0) as Hdb by (rewrite <- Hq; ring).
    apply Qcmult_integral in Hdb as [Hdb|Hdb].
    + by apply Qc_square_0.
    + rewrite Hdb in Hg22. by apply Qclt_not_eq in Hg22.
  - apply Qc_square_nonneg.
  - apply Qcmult_nonneg_nonneg; [apply Qc_square_nonneg|].
    by apply Qclt_le_weak.
Qed.

(** *** The design matrix of [perform_least_squares] *)

Lemma length_arange n : length (arange n) = n.
Proof. unfold arange, range. by rewrite length_fmap, length_seq. Qed.

Lemma length_ones n : length (ones n) = n.
Proof. apply length_replicate. Qed.

Lemma arange_S n : arange (S n) = arange n ++ [Qc_of_Z (Z.of_nat n)].
Proof. unfold arange, range. by rewrite seq_S, fmap_app. Qed.

Lemma ones_S n : ones (S n) = ones n ++ [1].
Proof. apply replicate_S_end. Qed.

Lemma design_fst n : (vstack_T (arange n) (ones n)).*1 = arange n.
Proof. apply fst_zip. by rewrite length_arange, length_ones. Qed.

Lemma design_snd n : (vstack_T (arange n) (ones n)).*2 = ones n.
Proof. apply snd_zip. by rewrite length_arange, length_ones. Qed.

Lemma length_design n : length (vstack_T (arange n) (ones n)) = n.
Proof.
  unfold vstack_T. rewrite length_zip_with, length_arange, length_ones. lia.
Qed.

Lemma Qc_of_nat_S n : Qc_of_Z (Z.of_nat (S n)) = Qc_of_Z (Z.of_nat n) + 1.
Proof. by rewrite Nat2Z.inj_succ, <- Z.add_1_r, Z2Qc_inj_add, Z2Qc_inj_1. Qed.

Lemma dot_ones_ones n : dot (ones n) (ones n) = Qc_of_Z (Z.of_nat n).
Proof.
  induction n as [|n IH]; [symmetry; apply Z2Qc_inj_0|].
  rewrite ones_S, dot_snoc, IH, Qc_of_nat_S by done. ring.
Qed.

Lemma dot_arange_ones n :
  (1 + 1) * dot (arange n) (ones n)
  = Qc_of_Z (Z.of_nat n) * (Qc_of_Z (Z.of_nat n) - 1).
Proof.
  induction n as [|n IH].
  - change (Z.of_nat 0) with 0%Z. rewrite Z2Qc_inj_0. cbn. ring.
  - rewrite arange_S, ones_S, dot_snoc by (by rewrite length_arange, length_ones).
    rewrite Qcmult_plus_distr_r, IH, Qc_of_nat_S. ring.
Qed.

Lemma dot_arange_arange n :
  (1 + 1) * (1 + 1 + 1) * dot (arange n) (arange n)
  = (Qc_of_Z (Z.of_nat n) - 1) * Qc_of_Z (Z.of_nat n)
    * ((1 + 1) * Qc_of_Z (Z.of_nat n) - 1).
Proof.
  induction n as [|n IH].
  - change (Z.of_nat 0) with 0%Z. rewrite Z2Qc_inj_0. cbn. ring.
  - rewrite arange_S, dot_snoc by done.
    rewrite Qcmult_plus_distr_r, IH, Qc_of_nat_S. ring.
Qed.

(** The Gram determinant of the design matrix on [n] points is
    [n² (n² - 1) / 12]. *)
Lemma design_det n :
  let N := Qc_of_Z (Z.of_nat n) in
  (1 + 1) * (1 + 1) * (1 + 1 + 1)
  * (dot (arange n) (arange n) * dot (ones n) (ones n)
     - dot (arange n) (ones n) * dot (arange n) (ones n))
  = N * N * (N - 1) * (N + 1).
Proof.
  intros N.
  transitivity
    ((1 + 1) * ((1 + 1) * (1 + 1 + 1) * dot (arange n) (arange n))
       * dot (ones n) (ones n)
     - (1 + 1 + 1) * (((1 + 1) * dot (arange n) (ones n))
                      * ((1 + 1) * dot (arange n) (ones n)))); [ring|].
  rewrite dot_arange_arange, dot_arange_ones, dot_ones_ones. fold N. ring.
Qed.

Lemma design_det_pos n :
  (2 ≤ n)%nat →
  0 < dot (arange n) (arange n) * dot (ones n) (ones n)
      - dot (arange n) (ones n) * dot (arange n) (ones n).
Proof.
  intros Hn. pose proof (design_det n) as Hd. cbv zeta in Hd.
  set (N := Qc_of_Z (Z.of_nat n)) in *.
  assert (1 < N) as HN.
  { subst N. rewrite <- Z2Qc_inj_1. apply (proj1 (Z2Qc_inj_lt 1 (Z.of_nat n))). lia. }
  assert (0 < N) as HN0 by (by trans 1).
  assert (0 < N * N * (N - 1) * (N + 1)) as Hpos.
  { repeat apply Qcmult_pos_pos; try done.
    - apply (Qcplus_lt_mono_r _ _ 1). by replace (N - 1 + 1) with N by ring.
    - by apply Qcplus_pos_pos. }
  rewrite <- Hd in Hpos.
  apply Qcnot_le_lt. intros Hle.
  apply (Qcmult_le_mono_nonneg_l _ _ ((1 + 1) * (1 + 1) * (1 + 1 + 1))) in Hle;
    [|done].
  rewrite Qcmult_0_r in Hle. by apply Qcle_not_lt in Hle.
Qed.

Lemma finite_values_of_reals (l : list Qc) : finite_values (of_reals l) = Some l.
Proof. induction l as [|x l IH]; [done|]. cbn. fold (of_reals l). by rewrite IH. Qed.

Lemma perform_least_squares_reals (y : list Qc) :
  perform_least_squares (of_reals y)
  = Returns (Fin (min_norm_solution
                    (vstack_T (arange (length y)) (ones (length y))) y).1,
             Fin (min_norm_solution
                    (vstack_T (arange (length y)) (ones (length y))) y).2).
Proof.
  unfold perform_least_squares, lstsq. rewrite length_of_reals.
  rewrite decide_True by (by rewrite length_design).
  rewrite finite_values_of_reals.
  by destruct (min_norm_solution _ y) as [m b].
Qed.

Lemma residual2_rows (y : list Qc) (m b : Qc) : ∀ k : nat,
  residual2 (zip ((λ i, Qc_of_Z (Z.of_nat i)) <$> seq k (length y))
                 (replicate (length y) 1)) y m b
  = sum_list (imap (λ i yi,
      (yi - (m * Qc_of_Z (Z.of_nat (k + i)) + b))
      * (yi - (m * Qc_of_Z (Z.of_nat (k + i)) + b))) y).
Proof.
  induction y as [|yi y IH]; intros k; [done|].
  cbn [length seq replicate fmap list_fmap zip zip_with residual2 imap sum_list foldr].
  rewrite (IH (S k)). rewrite Nat.add_0_r. f_equal.
  - ring.
  - unfold sum_list. f_equal. apply imap_ext. intros i x _. cbn.
    by replace (S (k + i)) with (k + S i)%nat by lia.
Qed.

Lemma squared_error_residual2 (y : list Qc) (m b : Qc) :
  squared_error y m b
  = residual2 (vstack_T (arange (length y)) (ones (length y))) y m b.
Proof. symmetry. apply (residual2_rows y m b 0). Qed.

(** For at least two points [perform_least_squares] returns the unique
    minimiser of the squared error. *)
Lemma perform_least_squares_fit (y : list Qc) :
  (2 ≤ length y)%nat →
  ∃ m b, perform_least_squares (of_reals y) = Returns (Fin m, Fin b)
         ∧ least_squares_line y m b.
Proof.
  intros Hn. rewrite perform_least_squares_reals.
  set (A := vstack_T (arange (length y)) (ones (length y))).
  destruct (min_norm_solution A y) as [m b] eqn:Hsol.
  exists m, b. split; [done|].
  pose proof (design_det_pos _ Hn) as Hdet.
  rewrite <- (design_fst (length y)), <- (design_snd (length y)) in Hdet at 1.
  assert (dot (A.*1) (A.*1) * dot (A.*2) (A.*2)
          - dot (A.*1) (A.*2) * dot (A.*1) (A.*2) ≠ 0) as Hdet0.
  { subst A. rewrite design_fst, design_snd.
    intros E. pose proof (design_det_pos _ Hn) as H. rewrite E in H.
    by apply Qclt_not_eq in H. }
  intros m' b'. rewrite !squared_error_residual2. fold A.
  rewrite (min_norm_solution_minimises A y m b m' b');
    [|by subst A; rewrite length_design|done..].
  pose proof (gram_form_nonneg A (m' - m) (b' - b)) as Hge. cbv zeta in Hge.
  split.
  - rewrite <- (Qcplus_0_r (residual2 A y m b)) at 1.
    by apply Qcplus_le_mono_l.
  - intros Hle.
    rewrite <- (Qcplus_0_r (residual2 A y m b)) in Hle at 2.
    apply Qcplus_le_mono_l in Hle.
    destruct (gram_form_definite _ _ _ _ _ (design_det_pos _ Hn)
                ltac:(rewrite dot_ones_ones, <- Z2Qc_inj_0;
                      apply (proj1 (Z2Qc_inj_lt 0 (Z.of_nat (length y)))); lia)
                ltac:(subst A; rewrite design_fst, design_snd in Hge; exact Hge)
                ltac:(subst A; rewrite design_fst, design_snd in Hle; exact Hle))
      as [Hm Hb].
    split; [rewrite <- (Qcplus_0_r m), <- Hm|rewrite <- (Qcplus_0_r b), <- Hb]; ring.
Qed.

(** ** The detrender *)

Lemma perform_least_squares_returns (y : array) :
  ∃ m b, perform_least_squares y = Returns (m, b).
Proof.
  unfold perform_least_squares, lstsq.
  rewrite decide_True by (by rewrite length_design).
  destruct (finite_values y) as [ys|]; [|by exists NaN, NaN].
  destruct (min_norm_solution _ ys) as [m b]. by exists (Fin m), (Fin b).
Qed.

Lemma remove_trend_eq (ts smoothed : array) (width : Z) (m b : float) :
  remove_irregularities ts width = Returns smoothed →
  perform_least_squares smoothed = Returns (m, b) →
  remove_trend ts width
  = Returns (imap (λ i v, fsub v (fmul m (of_nat i))) ts).
Proof.
  intros Hsm Hfit. unfold remove_trend. rewrite Hsm. cbn. rewrite Hfit. cbn.
  rewrite (for_each_range (λ i v, fsub v (fmul m (of_nat i)))); [done|].
  intros i s v Hv. unfold getitem, setitem. rewrite Hv. cbn.
  rewrite decide_True by (by eapply lookup_lt_Some). done.
Qed.

(** C2. For N >= 2 and width >= 0, [detrend(series, width)[i]] is
    [series[i] - slope * i], where [slope] is the least-squares slope fitted
    to the smoothed series; the subtraction is applied to the original
    series and the fitted intercept is not subtracted. *)
Theorem detrend_subtracts_fitted_slope (series : list Qc) (width : Z) :
  (2 ≤ length series)%nat → (0 ≤ width)%Z →
  ∃ (smoothed detrended : list Qc) (slope intercept : Qc),
    remove_irregularities (of_reals series) width = Returns (of_reals smoothed)
    ∧ perform_least_squares (of_reals smoothed)
      = Returns (Fin slope, Fin intercept)
    ∧ least_squares_line smoothed slope intercept
    ∧ remove_trend (of_reals series) width = Returns (of_reals detrended)
    ∧ length detrended = length series
    ∧ ∀ (i : nat) (v : Qc), series !! i = Some v →
        detrended !! i = Some (v - slope * Qc_of_Z (Z.of_nat i)).
Proof.
  intros Hn Hw.
  pose proof (remove_irregularities_reals series width Hw) as Hsm.
  set (smoothed := imap _ series) in Hsm.
  destruct (perform_least_squares_fit smoothed) as (slope & intercept & Hfit & Hls).
  { subst smoothed. by rewrite length_imap. }
  exists smoothed,
    (imap (λ i v, v - slope * Qc_of_Z (Z.of_nat i)) series), slope, intercept.
  split_and!; [done..| | |].
  - rewrite (remove_trend_eq _ _ _ _ _ Hsm Hfit). f_equal.
    apply list_eq. intros i. unfold of_reals.
    rewrite list_lookup_fmap, !list_lookup_imap, list_lookup_fmap.
    by destruct (series !! i).
  - by rewrite length_imap.
  - intros i v Hv. by rewrite list_lookup_imap, Hv.
Qed.

Lemma detrend_subtracts_fitted_slope_witness :
  ∃ (detrended : list Qc) (slope intercept : Qc),
    perform_least_squares (ints [1; 3; 5; 7]%Z) = Returns (Fin slope, Fin intercept)
    ∧ remove_trend (ints [1; 3; 5; 7]%Z) 0 = Returns (of_reals detrended)
    ∧ detrended !! 2%nat = Some (Qc_of_Z 5 - slope * Qc_of_Z 2).
Proof.
  destruct (detrend_subtracts_fitted_slope
              [Qc_of_Z 1; Qc_of_Z 3; Qc_of_Z 5; Qc_of_Z 7] 0)
    as (smoothed & detrended & slope & intercept & Hsm & Hfit & _ & Hrun & _ & Hi);
    [cbn; lia|lia|].
  change (of_reals [Qc_of_Z 1; Qc_of_Z 3; Qc_of_Z 5; Qc_of_Z 7])
    with (ints [1; 3; 5; 7]%Z) in *.
  rewrite remove_irregularities_width_0 in Hsm. injection Hsm as Hsm.
  rewrite <- Hsm in Hfit.
  exists detrended, slope, intercept. split_and!; [done..|].
  by apply (Hi 2%nat).
Defined.

(** C8. For every series and width >= 0 the smoothed series has the length
    of the input, and for N >= 2 so has the detrended series. *)
Theorem smooth_detrend_preserve_length (series : array) (width : Z) :
  (0 ≤ width)%Z →
  (∃ smoothed, remove_irregularities series width = Returns smoothed
               ∧ length smoothed = length series)
  ∧ ((2 ≤ length series)%nat →
     ∃ detrended, remove_trend series width = Returns detrended
                  ∧ length detrended = length series).
Proof.
  intros _. rewrite remove_irregularities_eq. split.
  - eexists. split; [done|]. by rewrite length_imap.
  - intros _.
    destruct (perform_least_squares_returns
                (imap (λ i _, np_mean (window series width i)) series))
      as (m & b & Hfit).
    rewrite (remove_trend_eq _ _ _ _ _ (remove_irregularities_eq _ _) Hfit).
    eexists. split; [done|]. by rewrite length_imap.
Qed.

Lemma smooth_detrend_preserve_length_witness :
  (∃ smoothed, remove_irregularities (ints [4; 8; 0]%Z) 2 = Returns smoothed
               ∧ length smoothed = 3%nat)
  ∧ ∃ detrended, remove_trend (ints [4; 8; 0]%Z) 2 = Returns detrended
                 ∧ length detrended = 3%nat.
Proof.
  destruct (smooth_detrend_preserve_length (ints [4; 8; 0]%Z) 2) as [Hs Hd]; [lia|].
  split; [exact Hs|]. apply Hd. cbn. lia.
Defined.

(** ** Strided slices and buckets *)

Lemma py_slice_to_end {A} (a : list A) (p : nat) :
  py_slice a (Z.of_nat p) (Z.of_nat (length a)) = drop p a.
Proof.
  unfold py_slice, slice_bound.
  rewrite !(proj2 (Z.ltb_ge _ _)) by lia.
  destruct (decide (p ≤ length a)%nat) as [Hp|Hp].
  - replace (Z.to_nat (Z.min (Z.of_nat p) (Z.of_nat (length a)))) with p by lia.
    apply take_ge. rewrite length_drop. lia.
  - replace (Z.to_nat (Z.min (Z.of_nat p) (Z.of_nat (length a))))
      with (length a) by lia.
    rewrite !drop_ge by lia. by rewrite take_nil.
Qed.

Lemma select_fmap {A B} (f : A → B) (P : nat → bool) (l : list A) : ∀ base,
  select P base (f <$> l) = f <$> select P base l.
Proof.
  induction l as [|x l IH]; intros base; [done|].
  cbn. rewrite IH. by destruct (P base).
Qed.

Lemma select_drop {A} (P : nat → bool) (k : nat) : ∀ (l : list A) base,
  (∀ j, (base ≤ j < base + k)%nat → P j = false) →
  select P base l = select P (base + k) (drop k l).
Proof.
  induction k as [|k IH]; intros l base HP.
  - by rewrite Nat.add_0_r, drop_0.
  - destruct l as [|x l]; [done|]. cbn [select drop].
    rewrite HP by lia. rewrite (IH l (S base)) by (intros j Hj; apply HP; lia).
    f_equal. lia.
Qed.

Lemma select_none {A} (P : nat → bool) : ∀ (l : list A) base,
  (∀ j, (base ≤ j < base + length l)%nat → P j = false) →
  select P base l = [].
Proof.
  induction l as [|x l IH]; intros base HP; [done|].
  cbn [select]. rewrite HP by (cbn; lia).
  apply IH. intros j Hj. apply HP. cbn. lia.
Qed.

Lemma every_from_select {A} (r : nat) : ∀ (l : list A) (skip base : nat),
  (skip ≤ 11)%nat → ((base + skip) mod 12 = r)%nat →
  every_from 11 skip l = select (λ j, (j mod 12 =? r)%nat) base l.
Proof.
  induction l as [|x l IH]; intros skip base Hskip Hr; [done|].
  cbn [every_from select]. destruct skip as [|k].
  - rewrite (proj2 (Nat.eqb_eq _ _)) by (rewrite <- Hr; f_equal; lia).
    f_equal. apply IH; [done|]. rewrite <- Hr.
    replace (S base + 11)%nat with (base + 0 + 1 * 12)%nat by lia.
    apply Nat.Div0.mod_add.
  - rewrite (proj2 (Nat.eqb_neq _ _)).
    + apply IH; [lia|]. rewrite <- Hr. f_equal. lia.
    + pose proof (Nat.div_mod_eq base 12).
      pose proof (Nat.mod_upper_bound base 12).
      pose proof (Nat.div_mod_eq (base + S k) 12).
      pose proof (Nat.mod_upper_bound (base + S k) 12).
      lia.
Qed.

Lemma py_slice_step_select {A} (d : list A) (p : nat) :
  (p < 12)%nat →
  py_slice_step d (Z.of_nat p) (Z.of_nat (length d)) 12
  = select (λ j, (j mod 12 =? p)%nat) 0 d.
Proof.
  intros Hp. unfold py_slice_step. rewrite py_slice_to_end. cbn [pred].
  rewrite (select_drop _ p d 0).
  - apply every_from_select; [lia|]. rewrite !Nat.add_0_r. by apply Nat.mod_small.
  - intros j Hj. apply Nat.eqb_neq. rewrite Nat.mod_small; lia.
Qed.

Lemma months_loop (d : array) :
  for_each (range 12) (λ i months,
    setitem months i
      (np_sum (py_slice_step d (Z.of_nat i) (Z.of_nat (length d)) 12)))
    (replicate 12 (of_Z 1))
  = Returns (buckets_of d).
Proof.
  pose proof (for_each_range
    (λ i _, np_sum (py_slice_step d (Z.of_nat i) (Z.of_nat (length d)) 12))
    (λ i months, setitem months i
       (np_sum (py_slice_step d (Z.of_nat i) (Z.of_nat (length d)) 12)))) as H.
  specialize (H ltac:(intros i s v Hv; unfold setitem;
                      by rewrite decide_True by (by eapply lookup_lt_Some))
                (replicate 12 (of_Z 1))).
  rewrite length_replicate in H. rewrite H.
  f_equal. unfold buckets_of.
  transitivity
    ((λ p, np_sum (py_slice_step d (Z.of_nat p) (Z.of_nat (length d)) 12))
       <$> range 12); [done|].
  apply list_fmap_ext. intros i p Hp.
  apply lookup_seq in Hp as [-> Hi]. by rewrite py_slice_step_select.
Qed.

Lemma is_seasonal_eq (ts d : array) (width : Z) :
  remove_trend ts width = Returns d →
  is_seasonal ts width
  = (index_of ← argmax (buckets_of d); Returns (buckets_of d, index_of)).
Proof.
  intros Hd. unfold is_seasonal. rewrite Hd. cbn [mbind outcome_bind].
  by rewrite months_loop.
Qed.

Lemma length_buckets_of (d : array) : length (buckets_of d) = 12%nat.
Proof. unfold buckets_of, range. by rewrite length_fmap, length_seq. Qed.

Lemma buckets_of_reals (d : list Qc) :
  buckets_of (of_reals d) = of_reals ((λ p, bucket_sum d 12 p) <$> range 12).
Proof.
  unfold buckets_of, of_reals at 2. rewrite <- list_fmap_compose.
  apply list_fmap_ext. intros _ p _. cbn.
  unfold of_reals. rewrite select_fmap. apply np_sum_of_reals.
Qed.

(** ** The dominant bucket *)

Lemma argmax_scan_first_maximum (rest : list Qc) :
  ∀ (pre : list Qc) (v : Qc) (max_ind : nat),
    pre !! max_ind = Some v →
    (∀ j w, pre !! j = Some w → w ≤ v) →
    (∀ j w, (j < max_ind)%nat → pre !! j = Some w → w < v) →
    first_maximum (pre ++ rest)
      (argmax_scan (of_reals rest) (length pre) (Fin v) max_ind).
Proof.
  induction rest as [|w rest IH]; intros pre v max_ind Hmax Hle Hlt.
  - rewrite app_nil_r. by exists v.
  - cbn [of_reals fmap list_fmap argmax_scan fle isnan].
    fold (of_reals rest). rewrite (cons_middle w pre rest), (assoc_L (++)).
    pose proof (lookup_lt_Some _ _ _ Hmax) as Hin.
    replace (S (length pre)) with (length (pre ++ [w]))
      by (rewrite length_app; cbn; lia).
    case_bool_decide as Hwv.
    + apply IH.
      * by rewrite lookup_app_l.
      * intros j u [Hu|[_ Hu]]%lookup_app_Some; [by eapply Hle|].
        apply list_lookup_singleton_Some in Hu as [_ <-]. done.
      * intros j u Hj Hu. rewrite lookup_app_l in Hu by lia. by eapply Hlt.
    + apply Qcnot_le_lt in Hwv.
      apply IH.
      * rewrite lookup_app_r by lia. by rewrite Nat.sub_diag.
      * intros j u [Hu|[_ Hu]]%lookup_app_Some.
        -- apply Qclt_le_weak. eapply Qcle_lt_trans; [by eapply Hle|done].
        -- apply list_lookup_singleton_Some in Hu as [_ <-]. apply Qcle_refl.
      * intros j u Hj Hu. rewrite lookup_app_l in Hu by lia.
        eapply Qcle_lt_trans; [by eapply Hle|done].
Qed.

Lemma argmax_reals (bs : list Qc) :
  bs ≠ [] → ∃ k, argmax (of_reals bs) = Returns k ∧ first_maximum bs k.
Proof.
  destruct bs as [|b0 bs]; [done|]. intros _.
  exists (argmax_scan (of_reals bs) 1 (Fin b0) 0). split; [done|].
  apply (argmax_scan_first_maximum bs [b0] b0 0%nat); [done|..].
  - intros j w Hw. apply list_lookup_singleton_Some in Hw as [_ <-].
    apply Qcle_refl.
  - intros j w Hj. lia.
Qed.

Lemma remove_trend_reals (series : list Qc) (width : Z) :
  (0 ≤ width)%Z →
  ∃ slope : Qc,
    remove_trend (of_reals series) width
    = Returns (of_reals
        (imap (λ i v, v - slope * Qc_of_Z (Z.of_nat i)) series)).
Proof.
  intros Hw.
  pose proof (remove_irregularities_reals series width Hw) as Hsm.
  set (smoothed := imap _ series) in Hsm.
  pose proof (perform_least_squares_reals smoothed) as Hfit.
  eexists. rewrite (remove_trend_eq _ _ _ _ _ Hsm Hfit). f_equal.
  apply list_eq. intros i. unfold of_reals.
  rewrite list_lookup_fmap, !list_lookup_imap, list_lookup_fmap.
  by destruct (series !! i).
Qed.

Lemma bucket_sum_empty (d : list Qc) (p : nat) :
  (length d ≤ p < 12)%nat → bucket_sum d 12 p = 0.
Proof.
  intros Hp. unfold bucket_sum. rewrite select_none; [done|].
  intros j Hj. apply Nat.eqb_neq. rewrite Nat.mod_small; lia.
Qed.

(** C3. For N >= 2 and width >= 0 the seasonal aggregator returns twelve
    buckets, bucket [p] the sum of the detrended values at the indices
    congruent to [p] modulo 12 (an empty bucket sums to 0), and as dominant
    index the smallest index attaining the maximum bucket sum; on
    [[5, 7, 7, 3]] the first maximum is at index 1. *)
Theorem seasonal_buckets_and_first_maximum (series : list Qc) (width : Z) :
  (2 ≤ length series)%nat → (0 ≤ width)%Z →
  (∃ (detrended buckets : list Qc) (dominant : nat),
      remove_trend (of_reals series) width = Returns (of_reals detrended)
      ∧ is_seasonal (of_reals series) width
        = Returns (of_reals buckets, dominant)
      ∧ length buckets = 12%nat
      ∧ (∀ p : nat, (p < 12)%nat →
           buckets !! p = Some (bucket_sum detrended 12 p))
      ∧ (∀ p : nat, (length detrended ≤ p < 12)%nat →
           buckets !! p = Some 0)
      ∧ first_maximum buckets dominant)
  ∧ argmax (ints [5; 7; 7; 3]%Z) = Returns 1%nat.
Proof.
  intros _ Hw. split; [|by_eval].
  destruct (remove_trend_reals series width Hw) as [slope Hd].
  set (detrended := imap _ series) in Hd.
  set (buckets := (λ p, bucket_sum detrended 12 p) <$> range 12).
  destruct (argmax_reals buckets) as (k & Hk & Hmax); [done|].
  assert (∀ p, (p < 12)%nat → buckets !! p = Some (bucket_sum detrended 12 p))
    as Hlook.
  { intros p Hp. subst buckets. unfold range.
    by rewrite list_lookup_fmap, lookup_seq_lt. }
  exists detrended, buckets, k. split_and!; [done| |done|done| |done].
  - rewrite (is_seasonal_eq _ _ _ Hd), buckets_of_reals. fold buckets.
    by rewrite Hk.
  - intros p Hp. rewrite Hlook by lia. by rewrite bucket_sum_empty.
Qed.

Lemma seasonal_buckets_and_first_maximum_witness :
  ∃ (buckets : list Qc) (dominant : nat),
    is_seasonal
      (of_reals (Qc_of_Z <$> [0; 10; 0; 10; 0; 10; 0; 10; 0; 10; 0; 10; 0; 10]%Z)) 0
    = Returns (of_reals buckets, dominant)
    ∧ length buckets = 12%nat
    ∧ first_maximum buckets dominant.
Proof.
  destruct (seasonal_buckets_and_first_maximum
    (Qc_of_Z <$> [0; 10; 0; 10; 0; 10; 0; 10; 0; 10; 0; 10; 0; 10]%Z) 0)
    as [(detrended & buckets & k & _ & Hrun & Hlen & _ & _ & Hmax) _];
    [cbn; lia|lia|].
  exists buckets, k. split_and!; [exact Hrun|exact Hlen|exact Hmax].
Defined.

(** ** Short series *)

Lemma min_norm_solution_single (v : Qc) :
  min_norm_solution (vstack_T (arange 1) (ones 1)) [v] = (0, v).
Proof.
  unfold min_norm_solution, dot.
  cbn [vstack_T arange ones range seq replicate fmap list_fmap zip zip_with
       fst snd foldr].
  change (Z.of_nat 0) with 0%Z. rewrite Z2Qc_inj_0.
  rewrite decide_True by ring.
  rewrite decide_False.
  - f_equal; field; replace (0 * 0 + 0 + (1 * 1 + 0)) with 1 by ring; done.
  - replace (0 * 0 + 0 + (1 * 1 + 0)) with 1 by ring. done.
Qed.

Lemma perform_least_squares_single (v : Qc) :
  perform_least_squares [Fin v] = Returns (Fin 0, Fin v).
Proof.
  change [Fin v] with (of_reals [v]).
  rewrite perform_least_squares_reals. cbn [length].
  by rewrite min_norm_solution_single.
Qed.

(** On one point the returned line interpolates it, and among the
    interpolating lines it has the least norm. *)
Lemma single_point_minimum_norm (v m' b' : Qc) :
  squared_error [v] 0 v = 0
  ∧ (squared_error [v] m' b' = 0 → 0 * 0 + v * v ≤ m' * m' + b' * b').
Proof.
  unfold squared_error. cbn [imap sum_list foldr].
  change (Z.of_nat 0) with 0%Z. rewrite Z2Qc_inj_0. split; [ring|].
  intros H.
  assert ((v - b') * (v - b') = 0) as Hb by (rewrite <- H; ring).
  apply Qc_square_0 in Hb.
  assert (b' = v) as -> by (rewrite <- (Qcplus_0_r b'), <- Hb; ring).
  rewrite Qcmult_0_l, Qcplus_0_l.
  rewrite <- (Qcplus_0_l (v * v)) at 1.
  apply Qcplus_le_mono_r, Qc_square_nonneg.
Qed.

Lemma perform_least_squares_empty :
  perform_least_squares [] = Returns (Fin 0, Fin 0).
Proof. by_eval. Qed.

Lemma window_single (v : float) (width : Z) :
  (0 ≤ width)%Z → window [v] width 0 = [v].
Proof.
  intros Hw. destruct (window_clipped [v] width 0) as (_ & _ & ->);
    [done|cbn; lia|].
  cbn [length].
  replace (Z.to_nat (Z.max 0 (Z.of_nat 0 - width))) with 0%nat by lia.
  by replace (Z.to_nat (Z.min (Z.of_nat 1) (Z.of_nat 0 + width + 1)))
    with 1%nat by lia.
Qed.

Lemma remove_trend_single (v : Qc) (width : Z) :
  (0 ≤ width)%Z → remove_trend [Fin v] width = Returns [Fin v].
Proof.
  intros Hw.
  assert (remove_irregularities [Fin v] width = Returns [Fin v]) as Hsm.
  { rewrite remove_irregularities_eq. cbn [imap].
    by rewrite window_single, np_mean_singleton. }
  rewrite (remove_trend_eq _ _ _ _ _ Hsm (perform_least_squares_single v)).
  cbn. do 3 f_equal. change (Z.of_nat 0) with 0%Z. rewrite Z2Qc_inj_0. ring.
Qed.

Lemma remove_trend_empty (width : Z) : remove_trend [] width = Returns [].
Proof.
  by rewrite (remove_trend_eq [] [] width (Fin 0) (Fin 0)
                (remove_irregularities_eq [] width) perform_least_squares_empty).
Qed.

Lemma buckets_of_single (v : Qc) :
  buckets_of [Fin v] = Fin v :: replicate 11 (Fin 0).
Proof.
  change [Fin v] with (of_reals [v]). rewrite buckets_of_reals.
  unfold bucket_sum. cbn. do 2 f_equal. ring.
Qed.

Lemma argmax_single_bucket (v : Qc) :
  argmax (Fin v :: replicate 11 (Fin 0))
  = Returns (if bool_decide (0 ≤ v) then 0%nat else 1%nat).
Proof.
  cbn [argmax isnan replicate argmax_scan fle].
  rewrite (bool_decide_eq_true_2 (0 ≤ 0)) by done.
  by case_bool_decide.
Qed.

(** C4 (as amended). A series of length N < 2 makes nothing fail: the fit of
    the empty series is (0, 0), the fit of [[v]] is slope 0 and intercept
    [v], and for width >= 0 detrending returns the series unchanged and the
    seasonal aggregator returns its twelve buckets. *)
Theorem short_series_are_fitted (v : Qc) (width : Z) :
  (0 ≤ width)%Z →
  perform_least_squares [] = Returns (Fin 0, Fin 0)
  ∧ perform_least_squares [Fin v] = Returns (Fin 0, Fin v)
  ∧ remove_trend [] width = Returns []
  ∧ remove_trend [Fin v] width = Returns [Fin v]
  ∧ is_seasonal [] width = Returns (replicate 12 (Fin 0), 0%nat)
  ∧ is_seasonal [Fin v] width
    = Returns (Fin v :: replicate 11 (Fin 0),
               if bool_decide (0 ≤ v) then 0%nat else 1%nat).
Proof.
  intros Hw. split_and!.
  - apply perform_least_squares_empty.
  - apply perform_least_squares_single.
  - apply remove_trend_empty.
  - by apply remove_trend_single.
  - rewrite (is_seasonal_eq _ _ _ (remove_trend_empty width)). by_eval.
  - rewrite (is_seasonal_eq _ _ _ (remove_trend_single v width Hw)).
    by rewrite buckets_of_single, argmax_single_bucket.
Qed.

Lemma short_series_are_fitted_witness :
  perform_least_squares [of_Z 5] = Returns (Fin 0, of_Z 5)
  ∧ remove_trend [of_Z 5] 3 = Returns [of_Z 5]
  ∧ is_seasonal [of_Z 5] 3 = Returns (of_Z 5 :: replicate 11 (Fin 0), 0%nat).
Proof.
  destruct (short_series_are_fitted (Qc_of_Z 5) 3)
    as (_ & Hfit & _ & Htrend & _ & Hseason); [lia|].
  split_and!; [exact Hfit|exact Htrend|exact Hseason].
Defined.

(** C4 (as stated) fails: on the one-point series [[5.0]] the fit returns
    (0, 5) and neither the detrender nor the seasonal aggregator raises. *)
Lemma fit_line_single_point_returns :
  perform_least_squares (ints [5]%Z) = Returns (of_Z 0, of_Z 5)
  ∧ ¬ fails (perform_least_squares (ints [5]%Z))
  ∧ ¬ fails (perform_least_squares [])
  ∧ ¬ fails (remove_trend (ints [5]%Z) 0)
  ∧ ¬ fails (is_seasonal (ints [5]%Z) 0).
Proof.
  split; [by_eval|].
  split_and!; intros [e He]; revert He; by_eval.
Qed.

(** ** Negative widths *)

Lemma np_mean_nil : np_mean [] = NaN.
Proof. by_eval. Qed.

Lemma window_negative_width (ts : array) (width : Z) (i : nat) :
  (width < 0)%Z → (i < length ts)%nat → (- (width + 1) ≤ Z.of_nat i)%Z →
  window ts width i = [].
Proof.
  intros Hw Hi Hlow. unfold window, py_slice, slice_bound.
  rewrite (proj2 (Z.ltb_lt 0 (Z.of_nat i - width))) by lia.
  rewrite (proj2 (Z.ltb_lt (Z.of_nat i + width + 1) (Z.of_nat (length ts)))) by lia.
  rewrite !(proj2 (Z.ltb_ge _ 0)) by lia.
  replace (Z.to_nat (Z.min (Z.of_nat i + width + 1) (Z.of_nat (length ts))
                     - Z.min (Z.of_nat i - width) (Z.of_nat (length ts))))
    with 0%nat by lia.
  apply take_0.
Qed.

(** C5 (as amended). For every series and every width < 0 the smoother does
    not fail: it returns a series of the length of the input, whose entry [i]
    is NaN (the mean of an empty slice) wherever [i >= -(width + 1)]; at
    width -1 that is every entry. *)
Theorem smooth_negative_width_returns (series : array) (width : Z) :
  (width < 0)%Z →
  ∃ smoothed,
    remove_irregularities series width = Returns smoothed
    ∧ length smoothed = length series
    ∧ (∀ i : nat, (i < length series)%nat → (- (width + 1) ≤ Z.of_nat i)%Z →
         smoothed !! i = Some NaN)
    ∧ (width = (-1)%Z → smoothed = replicate (length series) NaN).
Proof.
  intros Hw. rewrite remove_irregularities_eq. eexists.
  assert (∀ i : nat, (i < length series)%nat → (- (width + 1) ≤ Z.of_nat i)%Z →
            imap (λ i _, np_mean (window series width i)) series !! i = Some NaN)
    as Hnan.
  { intros i Hi Hlow. rewrite list_lookup_imap.
    destruct (lookup_lt_is_Some_2 series i Hi) as [v ->]. cbn.
    by rewrite window_negative_width, np_mean_nil. }
  split_and!; [done|by rewrite length_imap|done|].
  intros ->. apply list_eq. intros i.
  destruct (decide (i < length series)%nat) as [Hi|Hi].
  - rewrite Hnan by lia. symmetry. by apply lookup_replicate_2.
  - rewrite !lookup_ge_None_2; [done|rewrite length_replicate; lia|].
    rewrite length_imap. lia.
Qed.

Lemma smooth_negative_width_returns_witness :
  ∃ smoothed,
    remove_irregularities (ints [1; 2; 3]%Z) (-1) = Returns smoothed
    ∧ length smoothed = 3%nat
    ∧ smoothed = [NaN; NaN; NaN].
Proof.
  destruct (smooth_negative_width_returns (ints [1; 2; 3]%Z) (-1))
    as (smoothed & Hrun & Hlen & _ & Hall); [lia|].
  exists smoothed. split_and!; [exact Hrun|exact Hlen|by apply Hall].
Defined.

(** C5 (as stated) fails: [smooth([1, 2, 3], -1)] does not raise, it returns
    three NaNs; at width -2 a five-point series even gets a finite first
    entry, the mean of [series[2:-1]]. *)
Lemma smooth_negative_width_does_not_fail :
  remove_irregularities (ints [1; 2; 3]%Z) (-1) = Returns [NaN; NaN; NaN]
  ∧ ¬ fails (remove_irregularities (ints [1; 2; 3]%Z) (-1))
  ∧ remove_irregularities (ints [1; 2; 3; 4; 5]%Z) (-2)
    = Returns [q 7 2; NaN; NaN; NaN; NaN].
Proof.
  split_and!; [by_eval| |by_eval].
  intros [e He]; revert He; by_eval.
Qed.

(** ** The period of the seasonal aggregator *)

Lemma is_seasonal_reals (series : list Qc) (width : Z) :
  (0 ≤ width)%Z →
  ∃ (buckets : list Qc) (dominant : nat),
    is_seasonal (of_reals series) width = Returns (of_reals buckets, dominant)
    ∧ length buckets = 12%nat.
Proof.
  intros Hw. destruct (remove_trend_reals series width Hw) as [slope Hd].
  set (detrended := imap _ series) in Hd.
  destruct (argmax_reals ((λ p, bucket_sum detrended 12 p) <$> range 12))
    as (k & Hk & _); [done|].
  eexists _, k. rewrite (is_seasonal_eq _ _ _ Hd), buckets_of_reals, Hk.
  split; [done|]. unfold range. by rewrite length_fmap, length_seq.
Qed.

(** C6 (as amended). The seasonal aggregator has no period parameter: the
    period is fixed at 12.  Called with (series, width), width >= 0, it
    returns exactly twelve buckets; a call passing a third argument is
    rejected with a TypeError whatever that argument is. *)
Theorem seasonal_period_is_fixed (series : list Qc) (width : Z) :
  (0 ≤ width)%Z →
  (∃ (buckets : list Qc) (dominant : nat),
      call_is_seasonal [Arr (of_reals series); Int width]
      = Returns (of_reals buckets, dominant)
      ∧ length buckets = 12%nat)
  ∧ ∀ (period : object) (more : list object),
      call_is_seasonal (Arr (of_reals series) :: Int width :: period :: more)
      = Raises TypeError.
Proof.
  intros Hw. split; [by apply is_seasonal_reals|done].
Qed.

Lemma seasonal_period_is_fixed_witness :
  (∃ (buckets : list Qc) (dominant : nat),
      call_is_seasonal [Arr (ints [0; 10; 0; 10; 0; 10; 0; 10]%Z); Int 0]
      = Returns (of_reals buckets, dominant)
      ∧ length buckets = 12%nat)
  ∧ call_is_seasonal [Arr (ints [0; 10; 0; 10; 0; 10; 0; 10]%Z); Int 0; Int 0]
    = Raises TypeError.
Proof.
  destruct (seasonal_period_is_fixed
              (Qc_of_Z <$> [0; 10; 0; 10; 0; 10; 0; 10]%Z) 0) as [Hrun Hperiod];
    [lia|].
  split; [exact Hrun|apply (Hperiod (Int 0) [])].
Defined.

(** C6 (as stated) fails: the call of the specification's example,
    [seasonal_buckets([0,10,0,10,0,10,0,10], width=0, period=2)], is not
    accepted, and neither is a call passing the supposed default 12; without
    a period the aggregator returns twelve buckets. *)
Lemma seasonal_period_is_not_a_parameter :
  call_is_seasonal [Arr (ints [0; 10; 0; 10; 0; 10; 0; 10]%Z); Int 0; Int 2]
  = Raises TypeError
  ∧ call_is_seasonal [Arr (ints [0; 10; 0; 10; 0; 10; 0; 10]%Z); Int 0; Int 12]
    ≠ call_is_seasonal [Arr (ints [0; 10; 0; 10; 0; 10; 0; 10]%Z); Int 0]
  ∧ call_is_seasonal [Arr (ints [0; 10; 0; 10; 0; 10; 0; 10]%Z); Int 0]
    = Returns ([q 0 1; q 200 21; q (-20) 21; q 60 7; q (-40) 21; q 160 21;
                q (-20) 7; q 20 3; q 0 1; q 0 1; q 0 1; q 0 1], 1%nat).
Proof. split_and!; [done|by_eval|by_eval]. Qed.

(** ** Task 1: aggregate statistics *)

Lemma filter_at_least (bound : Qc) (a : array) :
  filter (λ t, fle (Fin bound) t) a = of_reals (at_least bound a).
Proof.
  induction a as [|[x|] a IH]; [done| |].
  - cbn [at_least]. destruct (decide (bound ≤ x)) as [Hx|Hx].
    + rewrite filter_cons_True by (cbn; by apply bool_decide_pack).
      by rewrite IH.
    + rewrite filter_cons_False; [exact IH|].
      cbn. intros H%bool_decide_unpack. done.
  - rewrite filter_cons_False by (intros H; exact H). exact IH.
Qed.

Lemma at_least_bound (bound : Qc) (a : array) :
  Forall (λ x, bound ≤ x) (at_least bound a).
Proof.
  induction a as [|[x|] a IH]; cbn [at_least]; [done| |done].
  case_decide; [by constructor|done].
Qed.

Lemma at_least_nil (bound : Qc) (a : array) :
  at_least bound a = [] ↔ Forall (λ t, fle (Fin bound) t = false) a.
Proof.
  induction a as [|[x|] a IH]; cbn [at_least].
  - split; [by constructor|done].
  - rewrite Forall_cons, <- IH. cbn. case_decide as Hx.
    + split; [done|]. intros [H _]. by rewrite bool_decide_eq_true_2 in H.
    + split; [|tauto]. intros ->. by rewrite bool_decide_eq_false_2.
  - rewrite Forall_cons, <- IH. cbn. tauto.
Qed.

Lemma sum_list_cons (x : Qc) (l : list Qc) : sum_list (x :: l) = x + sum_list l.
Proof. done. Qed.

Lemma sum_list_lower (c : Qc) (l : list Qc) :
  Forall (λ x, c ≤ x) l → c * Qc_of_Z (Z.of_nat (length l)) ≤ sum_list l.
Proof.
  induction 1 as [|x l Hx _ IH].
  - change (Z.of_nat (length [])) with 0%Z. rewrite Z2Qc_inj_0, Qcmult_0_r. done.
  - cbn [length]. rewrite sum_list_cons.
    rewrite Qc_of_nat_S, Qcmult_plus_distr_r, Qcmult_1_r, Qcplus_comm.
    by apply Qcplus_le_compat.
Qed.

Lemma Qc_of_nat_pos (n : nat) : n ≠ 0%nat → 0 < Qc_of_Z (Z.of_nat n).
Proof.
  intros Hn. rewrite <- Z2Qc_inj_0.
  apply (proj1 (Z2Qc_inj_lt 0 (Z.of_nat n))). lia.
Qed.

Lemma Qc_le_div (c s n : Qc) : 0 < n → c * n ≤ s ↔ c ≤ s / n.
Proof.
  intros Hn. rewrite (Qcmult_le_mono_pos_r c (s / n) n Hn).
  replace (s / n * n) with s; [done|].
  field. by apply Qclt_not_eq in Hn.
Qed.

Lemma Qc_div_le (c s n : Qc) : 0 < n → s ≤ c * n ↔ s / n ≤ c.
Proof.
  intros Hn. rewrite (Qcmult_le_mono_pos_r (s / n) c n Hn).
  replace (s / n * n) with s; [done|].
  field. by apply Qclt_not_eq in Hn.
Qed.

Lemma mean_lower (c : Qc) (l : list Qc) :
  l ≠ [] → Forall (λ x, c ≤ x) l → c ≤ mean l.
Proof.
  intros Hl Hall. unfold mean. apply Qc_le_div.
  - apply Qc_of_nat_pos. by destruct l.
  - by apply sum_list_lower.
Qed.

Lemma np_mean_reals (l : list Qc) :
  np_mean (of_reals l) = match l with [] => NaN | _ => Fin (mean l) end.
Proof.
  destruct l as [|x l]; [apply np_mean_nil|]. by rewrite np_mean_of_reals.
Qed.

Lemma average_delay_eq (arrival_time : array) :
  average_delay arrival_time
  = match at_least (Qc_of_Z 15) arrival_time with
    | [] => NaN
    | d :: ds => Fin (mean (d :: ds))
    end.
Proof.
  unfold average_delay, of_Z. rewrite filter_at_least, np_mean_reals.
  by destruct (at_least _ arrival_time).
Qed.

(** X1. The average delay is NaN exactly when no flight is at least 15
    minutes late (an empty array in particular). *)
Theorem average_delay_nan_iff (arrival_time : array) :
  average_delay arrival_time = NaN
  ↔ Forall (λ t, fle (of_Z 15) t = false) arrival_time.
Proof.
  rewrite average_delay_eq. unfold of_Z. rewrite <- at_least_nil.
  by destruct (at_least _ arrival_time).
Qed.

(** X2. When some flight is at least 15 minutes late, the average delay is
    the mean of the delays of at least 15 minutes, a finite number that is
    itself at least 15. *)
Theorem average_delay_at_least_15 (arrival_time : array) :
  Exists (λ t, fle (of_Z 15) t = true) arrival_time →
  average_delay arrival_time = Fin (mean (at_least (Qc_of_Z 15) arrival_time))
  ∧ Qc_of_Z 15 ≤ mean (at_least (Qc_of_Z 15) arrival_time).
Proof.
  intros Hex. rewrite average_delay_eq.
  pose proof (at_least_bound (Qc_of_Z 15) arrival_time) as Hb.
  destruct (at_least (Qc_of_Z 15) arrival_time) as [|d ds] eqn:Hd.
  - apply at_least_nil in Hd. apply Exists_exists in Hex as (t & Ht & Htrue).
    rewrite Forall_forall in Hd. unfold of_Z in Htrue.
    rewrite (Hd t Ht) in Htrue. done.
  - split; [done|]. by apply mean_lower.
Qed.

Lemma average_delay_at_least_15_witness :
  average_delay (ints [20; -5; 40; 3]%Z)
  = Fin (mean (at_least (Qc_of_Z 15) (ints [20; -5; 40; 3]%Z)))
  ∧ Qc_of_Z 15 ≤ mean (at_least (Qc_of_Z 15) (ints [20; -5; 40; 3]%Z)).
Proof.
  apply (average_delay_at_least_15 (ints [20; -5; 40; 3]%Z)).
  apply Exists_cons_hd. by_eval.
Defined.

(** *** Fractions *)

Lemma length_filter_all {A} (P : A → Prop) `{!∀ x, Decision (P x)} (l : list A) :
  length (filter P l) = length l ↔ Forall P l.
Proof.
  induction l as [|x l IH]; [by split; [constructor|]|].
  rewrite Forall_cons, <- IH. destruct (decide (P x)) as [Hx|Hx].
  - rewrite filter_cons_True by done. cbn. split; [intros; split; [done|lia]|].
    intros [_ ->]. done.
  - rewrite filter_cons_False by done. cbn.
    pose proof (length_filter P l). split; [lia|tauto].
Qed.

Lemma length_filter_none {A} (P : A → Prop) `{!∀ x, Decision (P x)} (l : list A) :
  length (filter P l) = 0%nat ↔ Forall (λ x, ¬ P x) l.
Proof.
  induction l as [|x l IH]; [by split; [constructor|]|].
  rewrite Forall_cons, <- IH. destruct (decide (P x)) as [Hx|Hx].
  - rewrite filter_cons_True by done. cbn. split; [lia|tauto].
  - rewrite filter_cons_False by done. tauto.
Qed.

Lemma Fin_eq (x y : Qc) : Fin x = Fin y ↔ x = y.
Proof.
  split; [|by intros ->]. intros H.
  exact (f_equal (λ f, match f with Fin z => z | NaN => x end) H).
Qed.

Lemma length_nonzero {A} (l : list A) : l ≠ [] → length l ≠ 0%nat.
Proof. intros H Hl. by apply H, nil_length_inv. Qed.

Lemma ratio_bounds (n d : nat) :
  (n ≤ d)%nat → d ≠ 0%nat →
  0 ≤ Qc_of_Z (Z.of_nat n) / Qc_of_Z (Z.of_nat d) ≤ 1.
Proof.
  intros Hn Hd. pose proof (Qc_of_nat_pos d Hd) as Hpos. split.
  - apply Qc_le_div; [done|]. rewrite Qcmult_0_l, <- Z2Qc_inj_0.
    apply (proj1 (Z2Qc_inj_le _ _)). lia.
  - apply Qc_div_le; [done|]. rewrite Qcmult_1_l.
    apply (proj1 (Z2Qc_inj_le _ _)). lia.
Qed.

Lemma ratio_0 (n d : nat) :
  d ≠ 0%nat → Qc_of_Z (Z.of_nat n) / Qc_of_Z (Z.of_nat d) = 0 ↔ n = 0%nat.
Proof.
  intros Hd. pose proof (Qc_of_nat_pos d Hd) as Hpos.
  apply Qclt_not_eq in Hpos. split.
  - intros H.
    assert (Qc_of_Z (Z.of_nat n) = 0) as Hn.
    { transitivity (Qc_of_Z (Z.of_nat n) / Qc_of_Z (Z.of_nat d)
                    * Qc_of_Z (Z.of_nat d)); [field; congruence|].
      rewrite H. ring. }
    rewrite <- Z2Qc_inj_0 in Hn. apply Z2Qc_inj in Hn. lia.
  - intros ->. change (Z.of_nat 0) with 0%Z. rewrite Z2Qc_inj_0.
    field. congruence.
Qed.

Lemma ratio_1 (n d : nat) :
  d ≠ 0%nat → Qc_of_Z (Z.of_nat n) / Qc_of_Z (Z.of_nat d) = 1 ↔ n = d.
Proof.
  intros Hd. pose proof (Qc_of_nat_pos d Hd) as Hpos.
  apply Qclt_not_eq in Hpos. split.
  - intros H.
    assert (Qc_of_Z (Z.of_nat n) = Qc_of_Z (Z.of_nat d)) as Hn.
    { transitivity (Qc_of_Z (Z.of_nat n) / Qc_of_Z (Z.of_nat d)
                    * Qc_of_Z (Z.of_nat d)); [field; congruence|].
      rewrite H. ring. }
    apply Z2Qc_inj in Hn. lia.
  - intros ->. field. congruence.
Qed.

Lemma delay_and_cancel_fractions_eq (arrival_time : array)
    (cancellation_code : list string) :
  arrival_time ≠ [] → cancellation_code ≠ [] →
  delay_and_cancel_fractions arrival_time cancellation_code
  = Value
      (Fin (Qc_of_Z (Z.of_nat
                       (length (filter (λ t, fle (of_Z 15) t) arrival_time)))
            / Qc_of_Z (Z.of_nat (length arrival_time))),
       Fin (Qc_of_Z (Z.of_nat (cancelled cancellation_code))
            / Qc_of_Z (Z.of_nat (length cancellation_code)))).
Proof.
  intros Ha Hc. unfold delay_and_cancel_fractions, int_truediv.
  rewrite !decide_False by (by apply length_nonzero).
  done.
Qed.

Lemma delay_and_cancel_fractions_empty (arrival_time : array)
    (cancellation_code : list string) :
  arrival_time = [] ∨ cancellation_code = [] →
  delay_and_cancel_fractions arrival_time cancellation_code = ZeroDivisionError.
Proof.
  intros [->| ->]; [done|].
  unfold delay_and_cancel_fractions, int_truediv.
  by destruct (decide (length arrival_time = 0%nat)).
Qed.

(** X4. [delay_and_cancel_fractions] raises a ZeroDivisionError exactly
    when one of its two arrays is empty. *)
Theorem fractions_zero_division_iff (arrival_time : array)
    (cancellation_code : list string) :
  delay_and_cancel_fractions arrival_time cancellation_code = ZeroDivisionError
  ↔ arrival_time = [] ∨ cancellation_code = [].
Proof.
  split; [|apply delay_and_cancel_fractions_empty].
  destruct (decide (arrival_time = [])) as [|Ha]; [by left|].
  destruct (decide (cancellation_code = [])) as [|Hc]; [by right|].
  by rewrite delay_and_cancel_fractions_eq.
Qed.

(** X5. On non-empty arrays the two fractions are the share of flights at
    least 15 minutes late and the share of codes other than 'nan'; both lie
    between 0 and 1. *)
Theorem fractions_in_unit_interval (arrival_time : array)
    (cancellation_code : list string) :
  arrival_time ≠ [] → cancellation_code ≠ [] →
  ∃ delay_ratio cancelled_ratio : Qc,
    delay_and_cancel_fractions arrival_time cancellation_code
    = Value (Fin delay_ratio, Fin cancelled_ratio)
    ∧ delay_ratio
      = Qc_of_Z (Z.of_nat (length (at_least (Qc_of_Z 15) arrival_time)))
        / Qc_of_Z (Z.of_nat (length arrival_time))
    ∧ cancelled_ratio
      = Qc_of_Z (Z.of_nat (cancelled cancellation_code))
        / Qc_of_Z (Z.of_nat (length cancellation_code))
    ∧ 0 ≤ delay_ratio ≤ 1
    ∧ 0 ≤ cancelled_ratio ≤ 1.
Proof.
  intros Ha Hc. rewrite delay_and_cancel_fractions_eq by done.
  eexists _, _. split; [done|].
  unfold of_Z. rewrite filter_at_least, length_of_reals.
  do 2 (split; [done|]). split.
  - apply ratio_bounds; [|by apply length_nonzero].
    rewrite <- (length_of_reals (at_least _ _)), <- filter_at_least.
    apply length_filter.
  - apply ratio_bounds; [|by apply length_nonzero].
    apply length_filter.
Qed.

Lemma fractions_in_unit_interval_witness :
  ∃ delay_ratio cancelled_ratio : Qc,
    delay_and_cancel_fractions (ints [20; -5; 40; 3]%Z)
      ["nan"; "A"; "nan"; "nan"]%string
    = Value (Fin delay_ratio, Fin cancelled_ratio)
    ∧ 0 ≤ delay_ratio ≤ 1
    ∧ 0 ≤ cancelled_ratio ≤ 1.
Proof.
  destruct (fractions_in_unit_interval (ints [20; -5; 40; 3]%Z)
              ["nan"; "A"; "nan"; "nan"]%string)
    as (d & k & Hrun & _ & _ & Hd & Hk); [done..|].
  by exists d, k.
Defined.

(** X6. On non-empty arrays the delay fraction is 0 exactly when no flight
    is at least 15 minutes late and 1 exactly when every flight is; the
    cancellation fraction is 0 exactly when every code is 'nan' and 1
    exactly when none is. *)
Theorem fractions_extremes (arrival_time : array)
    (cancellation_code : list string) (delay_ratio cancelled_ratio : float) :
  delay_and_cancel_fractions arrival_time cancellation_code
  = Value (delay_ratio, cancelled_ratio) →
  (delay_ratio = Fin 0 ↔ Forall (λ t, ¬ fle (of_Z 15) t) arrival_time)
  ∧ (delay_ratio = Fin 1 ↔ Forall (λ t, fle (of_Z 15) t) arrival_time)
  ∧ (cancelled_ratio = Fin 0
     ↔ Forall (λ c, c = "nan"%string) cancellation_code)
  ∧ (cancelled_ratio = Fin 1
     ↔ Forall (λ c, c ≠ "nan"%string) cancellation_code).
Proof.
  intros Hrun.
  destruct (decide (arrival_time = [])) as [->|Ha]; [done|].
  destruct (decide (cancellation_code = [])) as [->|Hc].
  { by rewrite delay_and_cancel_fractions_empty in Hrun by (by right). }
  rewrite delay_and_cancel_fractions_eq in Hrun by done.
  injection Hrun as <- <-.
  pose proof (length_nonzero _ Ha) as Hna.
  pose proof (length_nonzero _ Hc) as Hnc.
  split_and!.
  - by rewrite Fin_eq, <- length_filter_none, <- (ratio_0 _ _ Hna).
  - by rewrite Fin_eq, <- length_filter_all, <- (ratio_1 _ _ Hna).
  - unfold cancelled. rewrite Fin_eq, (ratio_0 _ _ Hnc), length_filter_none.
    apply Forall_proper; [|done]. intros c.
    destruct (decide (c = "nan"%string)); tauto.
  - unfold cancelled.
    by rewrite Fin_eq, <- length_filter_all, <- (ratio_1 _ _ Hnc).
Qed.

Lemma fractions_extremes_witness :
  Forall (λ c, c = "nan"%string) ["nan"; "nan"]%string
  ∧ ¬ Forall (λ t, fle (of_Z 15) t) (ints [20; -5]%Z).
Proof.
  destruct (fractions_extremes (ints [20; -5]%Z) ["nan"; "nan"]%string
              (q 1 2) (Fin 0)) as (_ & Hall & Hnan & _); [by_eval|].
  split; [by apply Hnan|].
  intros H. apply Hall in H. revert H. by_eval.
Defined.

(** *** Cancellations per carrier *)

Lemma per_carrier_fold (l : dict (list string)) :
  ∀ (m0 : Z) (p0 : string) (cm0 : gmap string nat),
    foldl (λ '(most_cancelled, poor_carrier, count_cancelled)
             '(carrier, carrier_cancellations),
        let number_cancelled :=
          length (filter (λ c, c ≠ "nan"%string) carrier_cancellations) in
        let count_cancelled := <[carrier := number_cancelled]> count_cancelled in
        if (most_cancelled <? Z.of_nat number_cancelled)%Z
        then (Z.of_nat number_cancelled, carrier, count_cancelled)
        else (most_cancelled, poor_carrier, count_cancelled))
      (m0, p0, cm0) l
    = (foldl (λ '(m, p) '(carrier, codes),
          if (m <? Z.of_nat (cancelled codes))%Z
          then (Z.of_nat (cancelled codes), carrier) else (m, p)) (m0, p0) l,
       foldl (λ cm '(carrier, codes), <[carrier := cancelled codes]> cm) cm0 l).
Proof.
  induction l as [|[c codes] l IH]; intros m0 p0 cm0; [done|].
  cbn [foldl]. fold (cancelled codes).
  destruct (m0 <? Z.of_nat (cancelled codes))%Z; apply IH.
Qed.

Lemma per_carrier_cancels_eq (d : dict (list string)) :
  per_carrier_cancels d
  = (foldl (λ cm '(carrier, codes), <[carrier := cancelled codes]> cm) ∅ d,
     (foldl (λ '(m, p) '(carrier, codes),
         if (m <? Z.of_nat (cancelled codes))%Z
         then (Z.of_nat (cancelled codes), carrier) else (m, p))
       ((-1)%Z, ""%string) d).2).
Proof.
  unfold per_carrier_cancels. rewrite per_carrier_fold.
  by destruct (foldl _ ((-1)%Z, ""%string) d).
Qed.

Lemma count_fold_union (l : dict (list string)) : ∀ cm0 : gmap string nat,
  NoDup l.*1 →
  foldl (λ cm '(carrier, codes), <[carrier := cancelled codes]> cm) cm0 l
  = (cancelled <$> (list_to_map l : gmap string (list string))) ∪ cm0.
Proof.
  induction l as [|[c codes] l IH]; intros cm0 Hnd.
  - cbn. by rewrite fmap_empty, (left_id_L ∅ (∪)).
  - apply NoDup_cons in Hnd as [Hc Hnd]. cbn [foldl list_to_map foldr].
    rewrite IH by done. cbn [uncurry fst snd].
    rewrite fmap_insert, <- insert_union_l. symmetry.
    apply insert_union_r. rewrite lookup_fmap.
    by rewrite (not_elem_of_list_to_map_1 _ _ Hc).
Qed.

(** X7. For a dict (distinct carriers) the returned counts hold, for each
    carrier of the input and for no other key, the number of that carrier's
    codes that differ from 'nan'. *)
Theorem per_carrier_counts (d : dict (list string)) :
  NoDup d.*1 →
  (per_carrier_cancels d).1
  = cancelled <$> (list_to_map d : gmap string (list string)).
Proof.
  intros Hnd. rewrite per_carrier_cancels_eq. cbn [fst].
  by rewrite count_fold_union, (right_id_L ∅ (∪)).
Qed.

Lemma per_carrier_counts_witness :
  (per_carrier_cancels
     [("AA", ["nan"; "A"; "B"]); ("UA", ["nan"])]%string).1
  = cancelled <$> (list_to_map
      [("AA", ["nan"; "A"; "B"]); ("UA", ["nan"])]%string
      : gmap string (list string)).
Proof.
  apply per_carrier_counts. by_eval.
Defined.

(** The state of the scan for the carrier with the most cancellations after
    the items [pre]: nothing seen yet, or the first item of maximal count. *)
Lemma poor_carrier_scan (l : dict (list string)) :
  ∀ (pre : dict (list string)) (m : Z) (p : string),
    (pre = [] ∧ m = (-1)%Z ∧ p = ""%string
     ∨ ∃ (i : nat) (codes : list string),
         pre !! i = Some (p, codes) ∧ m = Z.of_nat (cancelled codes)
         ∧ (∀ j c cs, pre !! j = Some (c, cs) →
              (cancelled cs ≤ cancelled codes)%nat)
         ∧ (∀ j c cs, (j < i)%nat → pre !! j = Some (c, cs) →
              (cancelled cs < cancelled codes)%nat)) →
    let '(m', p') :=
      foldl (λ '(m, p) '(carrier, codes),
          if (m <? Z.of_nat (cancelled codes))%Z
          then (Z.of_nat (cancelled codes), carrier) else (m, p)) (m, p) l in
    (pre ++ l = [] ∧ m' = (-1)%Z ∧ p' = ""%string
     ∨ ∃ (i : nat) (codes : list string),
         (pre ++ l) !! i = Some (p', codes) ∧ m' = Z.of_nat (cancelled codes)
         ∧ (∀ j c cs, (pre ++ l) !! j = Some (c, cs) →
              (cancelled cs ≤ cancelled codes)%nat)
         ∧ (∀ j c cs, (j < i)%nat → (pre ++ l) !! j = Some (c, cs) →
              (cancelled cs < cancelled codes)%nat)).
Proof.
  induction l as [|[c codes] l IH]; intros pre m p Hinv.
  - cbn [foldl]. by rewrite app_nil_r.
  - cbn [foldl]. rewrite (cons_middle (c, codes) pre l), (assoc_L (++)).
    destruct (Z.ltb_spec m (Z.of_nat (cancelled codes))) as [Hlt|Hge];
      apply IH; right.
    + exists (length pre), codes. split_and!.
      * by rewrite lookup_app_r, Nat.sub_diag by lia.
      * done.
      * intros j c' cs [Hj|[_ Hj]]%lookup_app_Some.
        -- destruct Hinv as [(-> & _ & _)|(i & codes0 & _ & -> & Hmax & _)];
             [done|].
           specialize (Hmax _ _ _ Hj). lia.
        -- apply list_lookup_singleton_Some in Hj as [_ [= _ <-]]. done.
      * intros j c' cs Hji Hj. rewrite lookup_app_l in Hj by lia.
        destruct Hinv as [(-> & _ & _)|(i & codes0 & _ & -> & Hmax & _)];
          [done|].
        specialize (Hmax _ _ _ Hj). lia.
    + destruct Hinv as [(-> & -> & _)|(i & codes0 & Hi & -> & Hmax & Hfirst)];
        [lia|].
      exists i, codes0. pose proof (lookup_lt_Some _ _ _ Hi).
      split_and!.
      * by rewrite lookup_app_l.
      * done.
      * intros j c' cs [Hj|[_ Hj]]%lookup_app_Some; [by eapply Hmax|].
        apply list_lookup_singleton_Some in Hj as [_ [= _ <-]]. lia.
      * intros j c' cs Hji Hj. rewrite lookup_app_l in Hj by lia.
        by eapply Hfirst.
Qed.

(** X8. On an empty dict the result is no counts and the carrier [""].
    On any other dict the reported carrier is an item of the dict whose
    number of cancellations is maximal, and the first such item in iteration
    order; this also holds when no flight was cancelled at all. *)
Theorem poor_carrier_first_maximum (d : dict (list string)) :
  d = [] ∧ per_carrier_cancels d = (∅, ""%string)
  ∨ ∃ (i : nat) (codes : list string),
      d !! i = Some ((per_carrier_cancels d).2, codes)
      ∧ (∀ j c cs, d !! j = Some (c, cs) →
           (cancelled cs ≤ cancelled codes)%nat)
      ∧ (∀ j c cs, (j < i)%nat → d !! j = Some (c, cs) →
           (cancelled cs < cancelled codes)%nat).
Proof.
  destruct d as [|item d]; [by left|]. right.
  rewrite per_carrier_cancels_eq. cbn [snd].
  pose proof (poor_carrier_scan (item :: d) [] (-1)%Z ""%string) as H.
  destruct (foldl _ ((-1)%Z, ""%string) (item :: d)) as [m p].
  destruct H as [(Hnil & _)|(i & codes & Hi & _ & Hmax & Hfirst)];
    [by left|done|].
  by exists i, codes.
Qed.

(** *** Carriers with a worse than average delay *)

Lemma aggregate_fold (d : dict array) : ∀ a : array,
  foldl (λ aggregate_data '(k, v),
      match aggregate_data with
      | None => Some v
      | Some a => Some (a ++ v)
      end) (Some a) d
  = Some (a ++ concat d.*2).
Proof.
  induction d as [|[k v] d IH]; intros a; cbn [foldl].
  - by rewrite app_nil_r.
  - rewrite IH. cbn. by rewrite (assoc_L (++)).
Qed.

Lemma aggregate_fold_None (item : string * array) (d : dict array) :
  foldl (λ aggregate_data '(k, v),
      match aggregate_data with
      | None => Some v
      | Some a => Some (a ++ v)
      end) None (item :: d)
  = Some (concat (item :: d).*2).
Proof. destruct item as [k v]. cbn [foldl]. by rewrite aggregate_fold. Qed.

Lemma poor_carriers_fold (P : array → bool) (d : dict array) :
  ∀ acc : list string,
    foldl (λ poor_carriers '(carrier, carrier_data),
        if P carrier_data then poor_carriers ++ [carrier] else poor_carriers)
      acc d
    = acc ++ (filter (λ item, P item.2) d).*1.
Proof.
  induction d as [|[c data] d IH]; intros acc; cbn [foldl].
  - by rewrite app_nil_r.
  - rewrite IH. destruct (P data) eqn:HP.
    + rewrite filter_cons_True by (cbn; rewrite HP; exact I).
      cbn. by rewrite <- (assoc_L (++)).
    + rewrite filter_cons_False; [done|].
      cbn. rewrite HP. intros H. exact H.
Qed.

Lemma fgt_nan_r (a : float) : fgt a NaN = false.
Proof. by destruct a. Qed.

Lemma underperforming_carriers_eq (item : string * array) (d : dict array) :
  underperforming_carriers (item :: d)
  = Returns (filter (λ it,
        fgt (average_delay it.2) (average_delay (concat (item :: d).*2)))
      (item :: d)).*1.
Proof.
  unfold underperforming_carriers. rewrite aggregate_fold_None.
  set (agg := concat (item :: d).*2).
  set (dd := item :: d).
  rewrite (poor_carriers_fold
    (λ data, fgt (np_mean (filter (λ t, fle (of_Z 15) t) data))
               (np_mean (filter (λ t, fle (of_Z 15) t) agg))) dd []).
  fold (average_delay agg). cbn [app].
  case_decide as Hnone; [|done].
  f_equal. symmetry.
  assert (average_delay agg = NaN) as ->.
  { unfold average_delay. apply nil_length_inv in Hnone. by rewrite Hnone. }
  induction dd as [|it dd IH]; [done|].
  rewrite filter_cons_False; [done|]. rewrite fgt_nan_r. intros H. exact H.
Qed.

(** X9. [underperforming_carriers] raises (a TypeError, from comparing
    [None] with 15) exactly on the empty dict. *)
Theorem underperforming_carriers_fails_iff (d : dict array) :
  fails (underperforming_carriers d) ↔ d = [].
Proof.
  destruct d as [|item d].
  - split; [done|]. intros _. by exists TypeError.
  - rewrite underperforming_carriers_eq. split; [|done]. by intros [e He].
Qed.

(** X10. On a non-empty dict the listed carriers are, in iteration order,
    exactly the items whose own [average_delay] is greater than the
    [average_delay] of all flights taken together (a NaN on either side
    counts as not greater). *)
Theorem underperforming_carriers_above_average (d : dict array) :
  d ≠ [] →
  underperforming_carriers d
  = Returns (filter (λ item,
        fgt (average_delay item.2) (average_delay (concat d.*2))) d).*1.
Proof.
  destruct d as [|item d]; [done|]. intros _.
  apply underperforming_carriers_eq.
Qed.

Lemma underperforming_carriers_above_average_witness :
  underperforming_carriers
    [("AA"%string, ints [20; 30]%Z); ("UA"%string, ints [60; -5]%Z)]
  = Returns ["UA"%string].
Proof.
  rewrite (underperforming_carriers_above_average
    [("AA"%string, ints [20; 30]%Z); ("UA"%string, ints [60; -5]%Z)]); [|done].
  by_eval.
Defined.

(** X12. When no flight of any carrier is at least 15 minutes late, the
    list of underperforming carriers is empty. *)
Theorem underperforming_carriers_no_delays (d : dict array) :
  d ≠ [] →
  Forall (λ item, Forall (λ t, fle (of_Z 15) t = false) item.2) d →
  underperforming_carriers d = Returns [].
Proof.
  intros Hd Hnone. destruct d as [|item d]; [done|].
  rewrite underperforming_carriers_eq. f_equal.
  set (agg := concat (item :: d).*2).
  assert (average_delay agg = NaN) as ->.
  { rewrite average_delay_eq. unfold of_Z in Hnone.
    assert (at_least (Qc_of_Z 15) agg = []) as ->; [|done].
    apply at_least_nil. subst agg. apply Forall_concat, Forall_fmap.
    eapply Forall_impl; [done|]. by intros [c data]. }
  generalize (item :: d). intros l.
  induction l as [|it l IH]; [done|].
  rewrite filter_cons_False; [done|]. rewrite fgt_nan_r. intros H. exact H.
Qed.

Lemma underperforming_carriers_no_delays_witness :
  underperforming_carriers
    [("AA"%string, ints [2; -3]%Z); ("UA"%string, ints [14]%Z)]
  = Returns [].
Proof.
  apply underperforming_carriers_no_delays; [done|].
  repeat constructor; by_eval.
Defined.

(** ** Task 2: the time series of late flights *)

(** X13. [read_and_process_npy] returns one count per row of the stored
    array; each count is at most the length of its row, it is 0 exactly when
    no entry of the row is at least 60 and the row length exactly when every
    entry is. *)
Theorem read_and_process_npy_counts (np_load : string → list array)
    (filename : string) :
  length (read_and_process_npy np_load filename) = length (np_load filename)
  ∧ ∀ (i : nat) (row : array), np_load filename !! i = Some row →
      ∃ n : nat,
        read_and_process_npy np_load filename !! i = Some n
        ∧ (n ≤ length row)%nat
        ∧ (n = 0%nat ↔ Forall (λ t, ¬ fle (of_Z 60) t) row)
        ∧ (n = length row ↔ Forall (λ t, fle (of_Z 60) t) row).
Proof.
  unfold read_and_process_npy. split; [by rewrite length_fmap|].
  intros i row Hrow. eexists. rewrite list_lookup_fmap, Hrow.
  split; [done|]. split_and!.
  - apply length_filter.
  - apply length_filter_none.
  - apply length_filter_all.
Qed.

Lemma read_and_process_npy_counts_witness :
  ∃ n : nat,
    read_and_process_npy (λ _, [ints [70; 10; 60]%Z; ints [5]%Z]) "d.npy" !! 0%nat
    = Some n
    ∧ (n ≤ 3)%nat.
Proof.
  destruct (read_and_process_npy_counts
              (λ _, [ints [70; 10; 60]%Z; ints [5]%Z]) "d.npy")
    as [_ Hrow].
  destruct (Hrow 0%nat (ints [70; 10; 60]%Z)) as (n & Hn & Hle & _); [done|].
  by exists n.
Defined.

Lemma astype_float_reals (counts : list nat) :
  astype_float counts = of_reals ((λ n, Qc_of_Z (Z.of_nat n)) <$> counts).
Proof. unfold astype_float, of_reals. by rewrite <- list_fmap_compose. Qed.

Lemma first_maximum_lt (l : list Qc) (k : nat) :
  first_maximum l k → (k < length l)%nat.
Proof. intros (v & Hv & _). by eapply lookup_lt_Some. Qed.

Lemma is_seasonal_reals_maximum (series : list Qc) (width : Z) :
  (0 ≤ width)%Z →
  ∃ (buckets : list Qc) (dominant : nat),
    is_seasonal (of_reals series) width = Returns (of_reals buckets, dominant)
    ∧ length buckets = 12%nat
    ∧ first_maximum buckets dominant.
Proof.
  intros Hw. destruct (remove_trend_reals series width Hw) as [slope Hd].
  set (detrended := imap _ series) in Hd.
  destruct (argmax_reals ((λ p, bucket_sum detrended 12 p) <$> range 12))
    as (k & Hk & Hmax); [done|].
  eexists _, k. rewrite (is_seasonal_eq _ _ _ Hd), buckets_of_reals, Hk.
  split_and!; [done| |done]. unfold range. by rewrite length_fmap, length_seq.
Qed.

(** X14. The counts that [read_and_process_npy] returns can always be fed to
    [is_seasonal]: for every stored array and every width >= 0 the call
    returns twelve finite bucket sums and a dominant index below 12 at which
    the first maximum of the buckets is attained. *)
Theorem is_seasonal_on_processed_counts (np_load : string → list array)
    (filename : string) (width : Z) :
  (0 ≤ width)%Z →
  ∃ (buckets : list Qc) (dominant : nat),
    is_seasonal (astype_float (read_and_process_npy np_load filename)) width
    = Returns (of_reals buckets, dominant)
    ∧ length buckets = 12%nat
    ∧ (dominant < 12)%nat
    ∧ first_maximum buckets dominant.
Proof.
  intros Hw. rewrite astype_float_reals.
  destruct (is_seasonal_reals_maximum
              ((λ n, Qc_of_Z (Z.of_nat n))
                 <$> read_and_process_npy np_load filename) width Hw)
    as (buckets & k & Hrun & Hlen & Hmax).
  exists buckets, k. split_and!; [done..| |done].
  rewrite <- Hlen. by apply first_maximum_lt.
Qed.

Lemma is_seasonal_on_processed_counts_witness :
  ∃ (buckets : list Qc) (dominant : nat),
    is_seasonal
      (astype_float
         (read_and_process_npy
            (λ _, [ints [70; 10; 60]%Z; ints [5; 5; 5]%Z; ints [90; 0; 61]%Z])
            "d.npy")) 1
    = Returns (of_reals buckets, dominant)
    ∧ (dominant < 12)%nat.
Proof.
  destruct (is_seasonal_on_processed_counts
              (λ _, [ints [70; 10; 60]%Z; ints [5; 5; 5]%Z; ints [90; 0; 61]%Z])
              "d.npy" 1)
    as (buckets & k & Hrun & _ & Hk & _); [lia|].
  exists buckets, k. split; [exact Hrun|exact Hk].
Defined.

(** ** More on the decomposition pipeline *)

Lemma argmax_scan_lt (rest : array) : ∀ (i : nat) (mp : float) (max_ind : nat),
  (max_ind < i)%nat →
  (argmax_scan rest i mp max_ind < i + length rest)%nat.
Proof.
  induction rest as [|v rest IH]; intros i mp max_ind Hlt; cbn [argmax_scan length].
  - lia.
  - destruct (fle v mp).
    + specialize (IH (S i) mp max_ind). lia.
    + destruct (isnan v); [lia|].
      specialize (IH (S i) v i). lia.
Qed.

Lemma argmax_lt (a : array) :
  a ≠ [] → ∃ k, argmax a = Returns k ∧ (k < length a)%nat.
Proof.
  destruct a as [|v rest]; [done|]. intros _. cbn [argmax length].
  destruct (isnan v); eexists; (split; [done|]); [lia|].
  pose proof (argmax_scan_lt rest 1 v 0). lia.
Qed.

(** X15. Whenever detrending returns, NaN entries or not, [is_seasonal]
    raises nothing: it returns twelve buckets and a dominant index below
    12. *)
Theorem is_seasonal_index_in_range (ts detrended : array) (width : Z) :
  remove_trend ts width = Returns detrended →
  ∃ (months : array) (index_of : nat),
    is_seasonal ts width = Returns (months, index_of)
    ∧ length months = 12%nat
    ∧ (index_of < 12)%nat.
Proof.
  intros Hd. rewrite (is_seasonal_eq _ _ _ Hd).
  destruct (argmax_lt (buckets_of detrended)) as (k & Hk & Hlt).
  { intros E. pose proof (length_buckets_of detrended) as Hl.
    by rewrite E in Hl. }
  rewrite Hk. eexists _, k. split_and!; [done|apply length_buckets_of|].
  by rewrite length_buckets_of in Hlt.
Qed.

Lemma is_seasonal_index_in_range_witness :
  ∃ (months : array) (index_of : nat),
    is_seasonal (ints [1; 3; 5; 7]%Z) 0 = Returns (months, index_of)
    ∧ length months = 12%nat
    ∧ (index_of < 12)%nat.
Proof.
  apply (is_seasonal_index_in_range
           (ints [1; 3; 5; 7]%Z) (ints [1; 1; 1; 1]%Z) 0).
  by_eval.
Defined.

(** X17. Detrending never changes the first value of a series: the offset
    subtracted at index 0 is [slope * 0]. *)
Theorem detrend_keeps_first_value (series : list Qc) (width : Z) (v : Qc) :
  (0 ≤ width)%Z → series !! 0%nat = Some v →
  ∃ detrended : list Qc,
    remove_trend (of_reals series) width = Returns (of_reals detrended)
    ∧ detrended !! 0%nat = Some v.
Proof.
  intros Hw Hv. destruct (remove_trend_reals series width Hw) as [slope Hd].
  eexists. split; [exact Hd|].
  rewrite list_lookup_imap, Hv. cbn. f_equal.
  change (Z.of_nat 0) with 0%Z. rewrite Z2Qc_inj_0. ring.
Qed.

Lemma detrend_keeps_first_value_witness :
  ∃ detrended : list Qc,
    remove_trend (of_reals [Qc_of_Z 4; Qc_of_Z 9; Qc_of_Z 1]) 1
    = Returns (of_reals detrended)
    ∧ detrended !! 0%nat = Some (Qc_of_Z 4).
Proof.
  apply (detrend_keeps_first_value [Qc_of_Z 4; Qc_of_Z 9; Qc_of_Z 1] 1);
    [lia|done].
Defined.

(** *** Windows as means *)

Lemma window_mean_take_drop (series : list Qc) (lo hi : Z) :
  (0 ≤ lo ≤ hi)%Z → (hi ≤ Z.of_nat (length series))%Z →
  window_mean series lo hi
  = sum_list (take (Z.to_nat (hi - lo)) (drop (Z.to_nat lo) series))
    / Qc_of_Z (hi - lo)
  ∧ length (take (Z.to_nat (hi - lo)) (drop (Z.to_nat lo) series))
    = Z.to_nat (hi - lo).
Proof.
  intros Hlo Hhi. unfold window_mean. rewrite lookups_seq by lia.
  split; [done|]. rewrite length_take, length_drop. lia.
Qed.

Lemma window_mean_is_mean (series : list Qc) (lo hi : Z) :
  (0 ≤ lo ≤ hi)%Z → (hi ≤ Z.of_nat (length series))%Z →
  window_mean series lo hi
  = mean (take (Z.to_nat (hi - lo)) (drop (Z.to_nat lo) series)).
Proof.
  intros Hlo Hhi.
  destruct (window_mean_take_drop series lo hi Hlo Hhi) as [-> Hlen].
  unfold mean. rewrite Hlen. do 2 f_equal. lia.
Qed.

Lemma smoothed_lookup (series : list Qc) (width : Z) (i : nat) (x : Qc) :
  (0 ≤ width)%Z →
  imap (λ i _,
      window_mean series (Z.max 0 (Z.of_nat i - width))
        (Z.min (Z.of_nat (length series)) (Z.of_nat i + width + 1))) series
    !! i = Some x →
  ∃ w : list Qc,
    w ≠ [] ∧ w `sublist_of` series ∧ x = mean w
    ∧ ((Z.of_nat (length series) - 1 ≤ width)%Z → w = series).
Proof.
  intros Hw. rewrite list_lookup_imap.
  destruct (series !! i) as [v|] eqn:Hv; [|done]. intros [= <-].
  pose proof (lookup_lt_Some _ _ _ Hv) as Hi.
  set (lo := Z.max 0 (Z.of_nat i - width)).
  set (hi := Z.min (Z.of_nat (length series)) (Z.of_nat i + width + 1)).
  destruct (window_mean_take_drop series lo hi) as [_ Hlen]; [lia..|].
  exists (take (Z.to_nat (hi - lo)) (drop (Z.to_nat lo) series)).
  split_and!.
  - intros E. rewrite E in Hlen. cbn in Hlen. lia.
  - etrans; [apply sublist_take|apply sublist_drop].
  - apply window_mean_is_mean; lia.
  - intros Hwide.
    replace (Z.to_nat lo) with 0%nat by lia.
    replace (Z.to_nat (hi - lo)) with (length series) by lia.
    by rewrite drop_0, firstn_all.
Qed.

(** X19. When the window is at least as wide as the series
    ([width >= N - 1]), every smoothed value is the mean of the whole
    series. *)
Theorem smooth_wide_window_is_global_mean (series : list Qc) (width : Z) :
  (0 ≤ width)%Z → (Z.of_nat (length series) - 1 ≤ width)%Z →
  remove_irregularities (of_reals series) width
  = Returns (of_reals (replicate (length series) (mean series))).
Proof.
  intros Hw Hwide. rewrite remove_irregularities_reals by done.
  do 2 f_equal. symmetry. apply replicate_as_Forall.
  split; [by rewrite length_imap|].
  apply Forall_lookup. intros i x Hx.
  destruct (smoothed_lookup series width i x Hw Hx) as (w & _ & _ & -> & Hall).
  by rewrite Hall.
Qed.

Lemma smooth_wide_window_is_global_mean_witness :
  remove_irregularities (of_reals [Qc_of_Z 3; Qc_of_Z 6; Qc_of_Z 9]) 2
  = Returns (of_reals (replicate 3 (mean [Qc_of_Z 3; Qc_of_Z 6; Qc_of_Z 9]))).
Proof.
  apply (smooth_wide_window_is_global_mean [Qc_of_Z 3; Qc_of_Z 6; Qc_of_Z 9] 2);
    cbn; lia.
Defined.

(** *** The slices of the seasonal loop *)

Lemma concat_bump {A} (x : A) (g : nat → list A) (k n : nat) : ∀ a : nat,
  concat ((λ p, if (k =? p)%nat then x :: g p else g p) <$> seq a n)
  ≡ₚ if decide (a ≤ k < a + n)%nat
     then x :: concat (g <$> seq a n) else concat (g <$> seq a n).
Proof.
  induction n as [|n IH]; intros a.
  - case_decide; [lia|done].
  - cbn [seq fmap list_fmap concat]. rewrite (IH (S a)).
    destruct (Nat.eqb_spec k a) as [->|Hne].
    + rewrite decide_False, decide_True by lia. done.
    + repeat case_decide; try lia; [|done].
      by rewrite Permutation_middle.
Qed.

Lemma select_partition {A} (d : list A) : ∀ base : nat,
  concat ((λ p, select (λ j, (j mod 12 =? p)%nat) base d) <$> seq 0 12) ≡ₚ d.
Proof.
  induction d as [|x d IH]; intros base; [done|].
  etrans; [|apply perm_skip, (IH (S base))].
  pose proof (concat_bump x
    (λ p, select (λ j, (j mod 12 =? p)%nat) (S base) d) (base mod 12) 12 0)
    as Hb.
  rewrite decide_True in Hb by (pose proof (Nat.mod_upper_bound base 12); lia).
  rewrite <- Hb. done.
Qed.

(** X25. The twelve slices [trendless_data[i::12]] that the seasonal loop
    sums partition the detrended series: [months[i]] is the sum of slice
    [i], and the slices together hold every detrended value exactly once. *)
Theorem seasonal_slices_partition (ts detrended : array) (width : Z) :
  remove_trend ts width = Returns detrended →
  ∃ (slices : list array) (index_of : nat),
    slices = (λ i, py_slice_step detrended (Z.of_nat i)
                     (Z.of_nat (length detrended)) 12) <$> range 12
    ∧ is_seasonal ts width = Returns (np_sum <$> slices, index_of)
    ∧ concat slices ≡ₚ detrended.
Proof.
  intros Hd.
  assert ((λ i, py_slice_step detrended (Z.of_nat i)
                  (Z.of_nat (length detrended)) 12) <$> range 12
          = (λ p, select (λ j, (j mod 12 =? p)%nat) 0 detrended) <$> range 12)
    as Hslices.
  { apply list_fmap_ext. intros i p Hp.
    apply lookup_seq in Hp as [-> Hi]. by apply py_slice_step_select. }
  destruct (argmax_lt (buckets_of detrended)) as (k & Hk & _).
  { intros E. pose proof (length_buckets_of detrended) as Hl.
    by rewrite E in Hl. }
  exists ((λ i, py_slice_step detrended (Z.of_nat i)
                  (Z.of_nat (length detrended)) 12) <$> range 12), k.
  rewrite Hslices. split; [done|]. split.
  - rewrite (is_seasonal_eq _ _ _ Hd), Hk. cbn [mbind outcome_bind].
    do 2 f_equal.
  - apply select_partition.
Qed.

Lemma seasonal_slices_partition_witness :
  ∃ (slices : list array) (index_of : nat),
    is_seasonal (ints [1; 3; 5; 7]%Z) 0 = Returns (np_sum <$> slices, index_of)
    ∧ concat slices ≡ₚ ints [1; 1; 1; 1]%Z.
Proof.
  destruct (seasonal_slices_partition
              (ints [1; 3; 5; 7]%Z) (ints [1; 1; 1; 1]%Z) 0)
    as (slices & k & _ & Hrun & Hperm); [by_eval|].
  exists slices, k. split; [exact Hrun|exact Hperm].
Defined.
